(** * itch: download queue, deploy engine, task runner, update checker

    A shallow embedding of the task-orchestration core of the itch desktop
    client, and the properties of its specification.

    Conventions used throughout:
    - a JavaScript object used as a dictionary is a [gmap] with [string]
      keys; iteration order of such an object is not modelled, and no
      statement below depends on it;
    - JavaScript numbers that hold integers (ranks, ids, timestamps in
      milliseconds) are [Z];
    - a value that may be [undefined] or [null] is an [option];
    - asynchronous functions are modelled by the effects they perform, in
      program order, together with their result; an [await]ed call whose
      callee is outside of the embedded code is given by its outcome. *)

From stdpp Require Import gmap strings list fin_maps.
From Stdlib Require Import ZArith Lia.

Local Open Scope Z_scope.
#[local] Set Warnings "-clear-no-such-hyp".

(** ** underscore helpers used by the embedded code *)

Module Underscore.

(** [_.min(list, iteratee)] on the non-empty list [x :: l]: the first
    element is always taken (its key is below [Infinity]), a later one
    replaces the result only when its key is strictly smaller. *)
Definition min_step {A} (f : A → Z) (acc v : A) : A :=
  if bool_decide (f v < f acc) then v else acc.

Definition min {A} (f : A → Z) (x : A) (l : list A) : A :=
  foldl (min_step f) x l.

(** [_.max(list, iteratee)], symmetrically. *)
Definition max_step {A} (f : A → Z) (acc v : A) : A :=
  if bool_decide (f acc < f v) then v else acc.

Definition max {A} (f : A → Z) (x : A) (l : list A) : A :=
  foldl (max_step f) x l.

(** [_.values(obj)] *)
Definition values {A} (m : gmap string A) : list A := (map_to_list m).*2.

(** [_.difference(array, other)]: the elements of [array] that are not in
    [other], in the order of [array]. *)
Definition difference (array other : list string) : list string :=
  list_difference array other.

End Underscore.

(** ** reducers/downloads (part_010) *)

Module Downloads.

Inductive DownloadReason := install | reinstall | update | revert | heal.

#[global] Instance DownloadReason_eq_dec : EqDecision DownloadReason.
Proof. solve_decision. Defined.

(** [IDownloadItem]; [game_id] stands for [item.game.id]. The numbers in
    [progress], [bps] and [eta] are stored and handed on, never computed
    with. *)
Record IDownloadItem := mkItem {
  id : string;
  game_id : Z;
  caveId : option string;
  reason : DownloadReason;
  rank : Z;
  finished : bool;
  progress : option Z;
  bps : option Z;
  eta : option Z;
  finishedAt : option Z;
  err : option string;
  errStack : option string;
}.

#[global] Instance IDownloadItem_eq_dec : EqDecision IDownloadItem.
Proof. solve_decision. Defined.

(** [Partial<IDownloadItem>] as the reducers build it: [p_id] is always
    given; for the other fields [None] means that the key is absent from
    the record (a key present with value [undefined] or [null] is
    [Some None]). *)
Record PartialItem := mkPartial {
  p_id : string;
  p_rank : option Z;
  p_finished : option bool;
  p_progress : option (option Z);
  p_bps : option (option Z);
  p_eta : option (option Z);
  p_finishedAt : option (option Z);
  p_err : option (option string);
  p_errStack : option (option string);
}.

(** [{ ...item, ...record }] *)
Definition spread (item : IDownloadItem) (record : PartialItem) : IDownloadItem :=
  {| id := p_id record;
     game_id := game_id item;
     caveId := caveId item;
     reason := reason item;
     rank := default (rank item) (p_rank record);
     finished := default (finished item) (p_finished record);
     progress := default (progress item) (p_progress record);
     bps := default (bps item) (p_bps record);
     eta := default (eta item) (p_eta record);
     finishedAt := default (finishedAt item) (p_finishedAt record);
     err := default (err item) (p_err record);
     errStack := default (errStack item) (p_errStack record) |}.

(** [IDownloadsState]; the derived field [itemIdsByGameId] is computed by
    a selector outside of the reducer and is left out. *)
Record IDownloadsState := mkState {
  items : gmap string IDownloadItem;
  paused : bool;
  restored : bool;
  speeds : list Z;
}.

Definition with_items (s : IDownloadsState) (m : gmap string IDownloadItem)
  : IDownloadsState :=
  {| items := m; paused := paused s; restored := restored s; speeds := speeds s |}.

Definition with_paused (s : IDownloadsState) (b : bool) : IDownloadsState :=
  {| items := items s; paused := b; restored := restored s; speeds := speeds s |}.

Definition SPEED_DATA_POINT_COUNT : nat := 60.

Definition initialState : IDownloadsState :=
  {| items := ∅; paused := true; restored := false;
     speeds := replicate SPEED_DATA_POINT_COUNT 0 |}.

Definition updateSingle (state : IDownloadsState) (record : PartialItem)
  : IDownloadsState :=
  match items state !! p_id record with
  | None => state
  | Some item =>
      with_items state (<[p_id record := spread item record]> (items state))
  end.

(** [indexBy(items, "id")]: a later element wins over an earlier one with
    the same id. *)
Definition index (l : list IDownloadItem) : gmap string IDownloadItem :=
  foldl (fun m i => <[id i := i]> m) ∅ l.

(** higher priority = smaller numbers *)
Definition higherPriorityRank (state : IDownloadsState) : Z :=
  match Underscore.values (items state) with
  | [] => 0
  | x :: l => rank (Underscore.min rank x l) - 1
  end.

(** lower priority = larger numbers *)
Definition lowerPriorityRank (state : IDownloadsState) : Z :=
  match Underscore.values (items state) with
  | [] => 0
  | x :: l => rank (Underscore.max rank x l) + 1
  end.

(** Modelled from the spec: [excludeGame] of reactors/downloads/getters is
    not part of the sources; the spec has the caller prune "older items
    for that game id before insert". *)
Definition excludeGame (state : IDownloadsState) (g : Z) : list IDownloadItem :=
  List.filter (fun i => negb (bool_decide (game_id i = g)))
              (Underscore.values (items state)).

(** Modelled from the spec: [getActiveDownload] of
    reactors/downloads/getters is not part of the sources; the spec has
    the selection pick "the non-finished item with the numerically
    smallest rank". *)
Definition getPendingDownloads (state : IDownloadsState) : list IDownloadItem :=
  List.filter (fun i => negb (finished i)) (Underscore.values (items state)).

Definition getActiveDownload (state : IDownloadsState) : option IDownloadItem :=
  match getPendingDownloads state with
  | [] => None
  | x :: l => Some (Underscore.min rank x l)
  end.

(** *** the handlers registered with [on(...)]

    Every handler but [retryDownload] returns a state on all paths;
    [retryDownload] has a bare [return;] and so may return [undefined],
    which is [None]. *)

Definition clearGameDownloads (state : IDownloadsState) (gameId : Z)
  : IDownloadsState :=
  with_items state (index (excludeGame state gameId)).

Definition with_rank (item : IDownloadItem) (r : Z) : IDownloadItem :=
  spread item {| p_id := id item; p_rank := Some r;
                 p_finished := None; p_progress := None; p_bps := None;
                 p_eta := None; p_finishedAt := None; p_err := None;
                 p_errStack := None |}.

Definition downloadStarted (state : IDownloadsState) (item : IDownloadItem)
  : IDownloadsState :=
  let rank := higherPriorityRank state in
  with_items state
    (<[id item := with_rank item rank]>
       (index (excludeGame state (game_id item)))).

Definition retryDownload (state : IDownloadsState) (i : string)
  : option IDownloadsState :=
  match items state !! i with
  | None => None   (* can't retry item we don't know about: [return;] *)
  | Some _ =>
      Some (updateSingle state
              {| p_id := i; p_rank := Some (lowerPriorityRank state);
                 p_finished := Some false; p_progress := None; p_bps := None;
                 p_eta := None; p_finishedAt := None; p_err := None;
                 p_errStack := None |})
  end.

Definition downloadProgress (state : IDownloadsState) (record : PartialItem)
  : IDownloadsState :=
  updateSingle state record.

(** payload of [downloadEnded]; the watcher also passes the [item], which
    the reducer does not read. *)
Record EndedPayload := mkEnded {
  e_id : string;
  e_item : option IDownloadItem;
  e_finishedAt : option Z;
  e_err : option string;
  e_errStack : option string;
}.

Definition downloadEnded (state : IDownloadsState) (p : EndedPayload)
  : IDownloadsState :=
  updateSingle state
    {| p_id := e_id p; p_rank := None; p_finished := Some true;
       p_finishedAt := Some (e_finishedAt p);
       p_progress := Some (Some 0); p_eta := Some (Some 0);
       p_bps := Some (Some 0);
       p_err := Some (e_err p); p_errStack := Some (e_errStack p) |}.

(** [last([...state.speeds, bps], SPEED_DATA_POINT_COUNT)] *)
Definition downloadSpeedDatapoint (state : IDownloadsState) (b : Z)
  : IDownloadsState :=
  let l := speeds state ++ [b] in
  {| items := items state; paused := paused state; restored := restored state;
     speeds := drop (length l - SPEED_DATA_POINT_COUNT)%nat l |}.

Definition prioritizeDownload (state : IDownloadsState) (i : string)
  : IDownloadsState :=
  updateSingle state
    {| p_id := i; p_rank := Some (higherPriorityRank state);
       p_finished := None; p_progress := None; p_bps := None;
       p_eta := None; p_finishedAt := None; p_err := None;
       p_errStack := None |}.

Definition downloadDiscarded (state : IDownloadsState) (i : string)
  : IDownloadsState :=
  match items state !! i with
  | None => state   (* we don't know about it! *)
  | Some _ => with_items state (delete i (items state))
  end.

Definition pauseDownloads (state : IDownloadsState) : IDownloadsState :=
  with_paused state true.

Definition zero_bps (i : IDownloadItem) : IDownloadItem :=
  spread i {| p_id := id i; p_rank := None; p_finished := None;
              p_progress := None; p_bps := Some (Some 0); p_eta := None;
              p_finishedAt := None; p_err := None; p_errStack := None |}.

Definition resumeDownloads (state : IDownloadsState) : IDownloadsState :=
  with_paused
    (with_items state
       (index (List.map zero_bps (Underscore.values (items state)))))
    false.

Definition downloadsRestored (state : IDownloadsState) : IDownloadsState :=
  {| items := items state; paused := paused state; restored := true;
     speeds := speeds state |}.

(** The actions the reducer has a handler for. *)
Inductive Action :=
| ClearGameDownloads (gameId : Z)
| DownloadStarted (item : IDownloadItem)
| RetryDownload (i : string)
| DownloadProgress (record : PartialItem)
| DownloadEnded (p : EndedPayload)
| DownloadSpeedDatapoint (b : Z)
| PrioritizeDownload (i : string)
| DownloadDiscarded (i : string)
| PauseDownloads
| ResumeDownloads
| DownloadsRestored.

(** [baseReducer]: the result of the handler registered for the action. *)
Definition baseReducer (state : IDownloadsState) (a : Action)
  : option IDownloadsState :=
  match a with
  | ClearGameDownloads g => Some (clearGameDownloads state g)
  | DownloadStarted item => Some (downloadStarted state item)
  | RetryDownload i => retryDownload state i
  | DownloadProgress r => Some (downloadProgress state r)
  | DownloadEnded p => Some (downloadEnded state p)
  | DownloadSpeedDatapoint b => Some (downloadSpeedDatapoint state b)
  | PrioritizeDownload i => Some (prioritizeDownload state i)
  | DownloadDiscarded i => Some (downloadDiscarded state i)
  | PauseDownloads => Some (pauseDownloads state)
  | ResumeDownloads => Some (resumeDownloads state)
  | DownloadsRestored => Some (downloadsRestored state)
  end.

(** The reducer over a sequence of actions; [None] as soon as a handler
    returns [undefined]. *)
Fixpoint reduceAll (state : IDownloadsState) (actions : list Action)
  : option IDownloadsState :=
  match actions with
  | [] => Some state
  | a :: rest => s ← baseReducer state a; reduceAll s rest
  end.

(** [IDownloadsState.items]: "All the downloads we know about, indexed by
    their own id" (part_004). *)
Definition indexed_by_own_id (m : gmap string IDownloadItem) : Prop :=
  ∀ k x, m !! k = Some x → id x = k.

End Downloads.

(** ** types: the distinguished error kinds *)

Module Types.

(** Modelled from the spec: [isCancelled] and [isAborted] of src/types are
    not part of the sources; the spec has cancellation and abort as
    "distinguished error kinds". A thrown error carries both marks, its
    [message], the text [String(error)] and its [stack]. *)
Record JsError := mkError {
  cancelled_kind : bool;
  aborted_kind : bool;
  message : string;
  to_string : string;
  stack : option string;
}.

(** Both are applied to a variable that is [undefined] when nothing was
    thrown. *)
Definition isCancelled (e : option JsError) : bool :=
  match e with Some e => cancelled_kind e | None => false end.

Definition isAborted (e : option JsError) : bool :=
  match e with Some e => aborted_kind e | None => false end.

(** truthiness of a string that may be [undefined] or [null] *)
Definition truthy (s : option string) : bool :=
  match s with
  | Some s => negb (bool_decide (s = EmptyString))
  | None => false
  end.

End Types.

(** ** reactors/downloads/download-watcher *)

Module DownloadWatcher.
Import Downloads Types.

(** [IDownloadHandle]; a [Context] object is identified by the number it
    was created with. *)
Record IDownloadHandle := mkHandle {
  h_item : IDownloadItem;
  h_ctx : nat;
}.

#[global] Instance IDownloadHandle_eq_dec : EqDecision IDownloadHandle.
Proof. solve_decision. Defined.

(** download-watcher-persistent-state: [discarded] only ever maps an id
    to [true], so it is a set of ids. *)
Record WatcherState := mkWatcher {
  current : option IDownloadHandle;
  handles : gmap string IDownloadHandle;
  discarded : gset string;
}.

(** What the watcher does to the outside, in program order. *)
Inductive Effect :=
| SetProgress (alpha : Z)
| GracefulCancel (ctx : nat)
| PerformDownload (ctx : nat) (item : IDownloadItem)
| Dispatch (a : Action)
| WipeDownloadFolder (item : IDownloadItem)
| WipeInstallFolder (item : IDownloadItem).

(** The store's downloads state, the watcher's persistent state, the
    [performDownload] calls that have not settled yet, the contexts that
    were sent [graceful-cancel], the counter for fresh contexts and the
    effects so far. *)
Record World := mkWorld {
  downloads : IDownloadsState;
  watcher : WatcherState;
  inflight : list IDownloadHandle;
  cancel_requested : gset nat;
  next_ctx : nat;
  effects : list Effect;
}.

(** The world when the application starts, with the downloads state the
    store starts from. *)
Definition boot (s : IDownloadsState) : World :=
  {| downloads := s;
     watcher := {| current := None; handles := ∅; discarded := ∅ |};
     inflight := []; cancel_requested := ∅; next_ctx := 0%nat; effects := [] |}.

Definition initialWorld : World := boot initialState.

Definition emit (w : World) (e : Effect) : World :=
  {| downloads := downloads w; watcher := watcher w; inflight := inflight w;
     cancel_requested := cancel_requested w; next_ctx := next_ctx w;
     effects := effects w ++ [e] |}.

Definition with_watcher (w : World) (ws : WatcherState) : World :=
  {| downloads := downloads w; watcher := ws; inflight := inflight w;
     cancel_requested := cancel_requested w; next_ctx := next_ctx w;
     effects := effects w |}.

Definition with_downloads (w : World) (s : IDownloadsState) : World :=
  {| downloads := s; watcher := watcher w; inflight := inflight w;
     cancel_requested := cancel_requested w; next_ctx := next_ctx w;
     effects := effects w |}.

(** [store.dispatch(actions.downloadDiscarded({ id }))] and the two other
    actions the watcher dispatches: their handlers always return a state. *)
Definition dispatchDownloadDiscarded (w : World) (i : string) : World :=
  emit (with_downloads w (downloadDiscarded (downloads w) i))
       (Dispatch (DownloadDiscarded i)).

Definition dispatchDownloadEnded (w : World) (p : EndedPayload) : World :=
  emit (with_downloads w (downloadEnded (downloads w) p))
       (Dispatch (DownloadEnded p)).

Definition dispatchDownloadProgress (w : World) (r : PartialItem) : World :=
  emit (with_downloads w (downloadProgress (downloads w) r))
       (Dispatch (DownloadProgress r)).

Definition setProgress (w : World) (alpha : Z) : World :=
  emit w (SetProgress alpha).

Definition cancelCurrent (w : World) : World :=
  match current (watcher w) with
  | None => w
  | Some handle =>
      let w1 := emit w (GracefulCancel (h_ctx handle)) in
      {| downloads := downloads w1;
         watcher := {| current := None; handles := handles (watcher w1);
                       discarded := discarded (watcher w1) |};
         inflight := inflight w1;
         cancel_requested := {[ h_ctx handle ]} ∪ cancel_requested w1;
         next_ctx := next_ctx w1;
         effects := effects w1 |}
  end.

(** [start], up to the point where it waits for [performDownload]. *)
Definition start (w : World) (item : IDownloadItem) : World :=
  let w1 := cancelCurrent w in
  let ctx := next_ctx w1 in
  let handle := {| h_item := item; h_ctx := ctx |} in
  {| downloads := downloads w1;
     watcher := {| current := Some handle;
                   handles := <[id item := handle]> (handles (watcher w1));
                   discarded := discarded (watcher w1) |};
     inflight := inflight w1 ++ [handle];
     cancel_requested := cancel_requested w1;
     next_ctx := S ctx;
     effects := effects w1 ++ [PerformDownload ctx item] |}.

Definition cleanupDiscarded (w : World) (item : IDownloadItem) : World :=
  let w1 := emit w (WipeDownloadFolder item) in
  if bool_decide (reason item = install) && truthy (err item)
  then emit w1 (WipeInstallFolder item)
  else w1.

(** The [finally] block of [start], run when [performDownload] has
    returned ([error = None]) or thrown. *)
Definition start_finally (w : World) (item : IDownloadItem)
    (error : option JsError) : World :=
  let w1 := with_watcher w
              {| current := current (watcher w);
                 handles := delete (id item) (handles (watcher w));
                 discarded := discarded (watcher w) |} in
  let cancelled := isCancelled error in
  let aborted := isAborted error in
  if cancelled || aborted then
    if bool_decide (id item ∈ discarded (watcher w1)) || aborted then
      let w2 := if aborted then dispatchDownloadDiscarded w1 (id item) else w1 in
      let w3 := with_watcher w2
                  {| current := current (watcher w2);
                     handles := handles (watcher w2);
                     discarded := discarded (watcher w2) ∖ {[ id item ]} |} in
      cleanupDiscarded w3 item
    else w1
  else
    let err := match error with
               | Some e => Some (if truthy (Some (message e)) then message e
                                 else to_string e)
               | None => None
               end in
    let errStack := match error with Some e => stack e | None => None end in
    let storeItem := items (downloads w1) !! id item in
    let freshItem := default item storeItem in
    dispatchDownloadEnded w1
      {| e_id := id freshItem; e_item := Some freshItem;
         e_finishedAt := None; e_err := err; e_errStack := errStack |}.

(** [updateDownloadState], the body of the tick handler. *)
Definition updateDownloadState (w : World) : World :=
  let downloadsState := downloads w in
  if paused downloadsState then
    let w1 := match current (watcher w) with
              | Some _ => cancelCurrent w
              | None => w
              end in
    setProgress w1 (-1)
  else
    match getActiveDownload downloadsState with
    | Some activeDownload =>
        let w1 := setProgress w (default 0 (progress activeDownload)) in
        match current (watcher w1) with
        | None => start w1 activeDownload
        | Some cur =>
            if bool_decide (id (h_item cur) ≠ id activeDownload)
            then start w1 activeDownload
            else w1   (* still downloading currentDownload *)
        end
    | None =>
        let w1 := setProgress w (-1) in
        match current (watcher w1) with
        | Some _ => cancelCurrent w1
        | None => w1   (* idle *)
        end
    end.

(** The handler of [discardDownload]. *)
Definition discardDownload (w : World) (i : string) : World :=
  match items (downloads w) !! i with
  | None => w   (* trying to discard unknown download, doing nothing *)
  | Some item =>
      let w1 :=
        match handles (watcher w) !! i with
        | Some _ =>
            with_watcher w
              {| current := current (watcher w);
                 handles := handles (watcher w);
                 discarded := {[ i ]} ∪ discarded (watcher w) |}
        | None => cleanupDiscarded w item
        end in
      dispatchDownloadDiscarded w1 i
  end.

(** The progress listener installed by [start], before the download was
    interrupted. *)
Definition onProgress (w : World) (item : IDownloadItem)
    (pr bp et : option Z) : World :=
  dispatchDownloadProgress w
    {| p_id := id item; p_rank := None; p_finished := None;
       p_progress := Some pr; p_bps := Some bp; p_eta := Some et;
       p_finishedAt := None; p_err := None; p_errStack := None |}.

(** *** the queue as a transition system

    What can happen to the queue: an action reaches the reducer, the
    user discards a download, the scheduler ticks, a download that is in
    flight reports progress or settles. Each event is handled to
    completion before the next one (the scheduler is single-threaded). *)
Inductive Event :=
| Reduce (a : Action)
| Discard (i : string)
| Tick
| Progress (ctx : nat) (pr bp et : option Z)
| Settle (ctx : nat) (error : option JsError).

Definition find_inflight (w : World) (ctx : nat) : option IDownloadHandle :=
  List.find (fun h => bool_decide (h_ctx h = ctx)) (inflight w).

Definition remove_inflight (w : World) (ctx : nat) : World :=
  {| downloads := downloads w; watcher := watcher w;
     inflight := List.filter (fun h => negb (bool_decide (h_ctx h = ctx)))
                             (inflight w);
     cancel_requested := cancel_requested w; next_ctx := next_ctx w;
     effects := effects w |}.

(** [None]: the event cannot happen in this world (no such download in
    flight), or the reducer's handler returned [undefined]. *)
Definition step (w : World) (e : Event) : option World :=
  match e with
  | Reduce a =>
      s ← baseReducer (downloads w) a;
      Some (emit (with_downloads w s) (Dispatch a))
  | Discard i => Some (discardDownload w i)
  | Tick => Some (updateDownloadState w)
  | Progress ctx pr bp et =>
      h ← find_inflight w ctx;
      Some (onProgress w (h_item h) pr bp et)
  | Settle ctx error =>
      h ← find_inflight w ctx;
      Some (start_finally (remove_inflight w ctx) (h_item h) error)
  end.

Fixpoint run (w : World) (es : list Event) : option World :=
  match es with
  | [] => Some w
  | e :: es => w' ← step w e; run w' es
  end.

Definition reachable (w : World) : Prop :=
  ∃ s es, run (boot s) es = Some w.

(** A download is live when it is in flight and its context was not sent
    [graceful-cancel]. *)
Definition live (w : World) (h : IDownloadHandle) : Prop :=
  h ∈ inflight w ∧ h_ctx h ∉ cancel_requested w.

(** The item the queue has active, as the tick handler determines it:
    none while paused, otherwise the selection of [getActiveDownload]. *)
Definition activeItem (s : IDownloadsState) : option IDownloadItem :=
  if paused s then None else getActiveDownload s.

(** What the watcher maintains: a download in flight whose context was not
    sent [graceful-cancel] is the current one; the current context was not
    sent [graceful-cancel]; contexts are numbered below [next_ctx], and no
    two downloads in flight share one. *)
Record inv (w : World) : Prop := mkInv {
  inv_live : ∀ h, h ∈ inflight w → h_ctx h ∉ cancel_requested w →
             current (watcher w) = Some h;
  inv_current : ∀ h, current (watcher w) = Some h →
                (h_ctx h < next_ctx w)%nat ∧ h_ctx h ∉ cancel_requested w;
  inv_cancelled : ∀ c, c ∈ cancel_requested w → (c < next_ctx w)%nat;
  inv_inflight : ∀ h, h ∈ inflight w → (h_ctx h < next_ctx w)%nat;
  inv_nodup : NoDup (h_ctx <$> inflight w);
}.

(** [a] is a non-finished item of [s] whose rank no non-finished item of [s]
    is below. *)
Definition minimal_pending (s : IDownloadsState) (a : IDownloadItem) : Prop :=
  a ∈ Underscore.values (items s)
  ∧ finished a = false
  ∧ ∀ x, x ∈ Underscore.values (items s) → finished x = false → rank a ≤ rank x.

(** Every handle of the table is under the id of its item, and its
    download is in flight. *)
Definition handles_in_flight (w : World) : Prop :=
  ∀ k h, handles (watcher w) !! k = Some h →
         id (h_item h) = k ∧ h ∈ inflight w.

Definition is_install_wipe_of (item : IDownloadItem) (e : Effect) : bool :=
  match e with
  | WipeInstallFolder i => bool_decide (i = item)
  | _ => false
  end.

Definition is_download_wipe_of (item : IDownloadItem) (e : Effect) : bool :=
  match e with
  | WipeDownloadFolder i => bool_decide (i = item)
  | _ => false
  end.

(** Among the effects [l]: an install folder is wiped only for a download
    whose reason is [install] and that has an error; and at every point of
    [l] the install folder of an item was wiped at most as many times as
    its download folder: every wipe of an install folder comes after a
    wipe of the download folder of the same item, one of its own. *)
Definition wipes_justified (l : list Effect) : Prop :=
  (∀ item, WipeInstallFolder item ∈ l →
           reason item = install ∧ truthy (err item) = true)
  ∧ ∀ item before after, l = before ++ after →
      (length (List.filter (is_install_wipe_of item) before)
       ≤ length (List.filter (is_download_wipe_of item) before))%nat.

(** What [cleanupDiscarded] does for [item]. *)
Definition cleanup_effects (item : IDownloadItem) : list Effect :=
  WipeDownloadFolder item ::
  (if bool_decide (reason item = install) && truthy (err item)
   then [WipeInstallFolder item] else []).

Definition is_start (e : Effect) : bool :=
  match e with PerformDownload _ _ => true | _ => false end.

End DownloadWatcher.

(** ** util/deploy *)

Module Deploy.

(** The cave record is copied into the receipt as it is. *)
Definition ICaveRecord := string.

(** What reading [destPath/.itch/receipt.json] gives: no file, or one
    that cannot be read; text that [JSON.parse] rejects (or that parses to
    something without properties); or an object whose [files] may be
    missing. *)
Inductive ReceiptFile :=
| NoReceipt
| Unparsable
| Receipt (cave : option ICaveRecord) (files : option (list string)).

(** The receipt file, relative to [destPath]. *)
Definition receiptRel : string := ".itch/receipt.json".

(** The part of the disk [deploy] works on. [stage] and [dest] are what
    [sf.glob("**", {dot: true, nodir: true})] lists below [stagePath] (in
    its order) and below [destPath]: every file, dot files and the files
    of dot folders included, so that the receipt file is one of the files
    of [dest] when it is there. [receipt] is what reading the receipt
    file gives, and [staged_receipt] what a staged file of the same path
    would give, once copied over it. The names are those of files, as
    [sf.glob] gives them and as [deploy] writes them into a receipt;
    what [sf.globIgnore] leaves out of both listings is no file of the
    model. *)
Record Disk := mkDisk {
  stage : list string;
  staged_receipt : ReceiptFile;
  dest : gset string;
  receipt : ReceiptFile;
}.

(** What the [onSingle] listener does: throw, or return a result whose
    [deployed] is set or not. *)
Inductive SingleOutcome :=
| SingleThrows
| SingleReturns (deployed : bool).

Definition ISingleListener := string → SingleOutcome.

(** [logger] is optional in [IDeployOpts]; only its presence matters. *)
Record IDeployOpts := mkOpts {
  stagePath : string;
  destPath : string;
  cave : option ICaveRecord;
  onSingle : option ISingleListener;
  logger : bool;
}.

Definition singlenoop : ISingleListener := fun _ => SingleReturns false.

(** How the calls to [sf] and to butler end. The listing of the stage
    may fail. The wipes run up to four at a time: when one of them fails
    the rest of the list is not started, but the wipes under way go on,
    and [wipe_done] says of a wipe that succeeds whether it was run in a
    map that failed. A [ditto] that fails may have copied some files,
    [ditto_copied]. A [writeFile] that fails leaves a receipt file that
    reads [torn_receipt]; [NoReceipt] there stands for a write that
    failed before it touched the file. The listing of the destination
    (line 91) is taken to succeed. *)
Record Outcomes := mkOutcomes {
  glob_stage_ok : bool;
  mkdir_ok : bool;
  wipe_ok : string → bool;
  wipe_done : string → bool;
  ditto_ok : bool;
  ditto_copied : list string;
  write_ok : bool;
  torn_receipt : ReceiptFile;
}.

Inductive Step :=
| AtGlobStage | AtSingle | AtMkdir | AtLogger | AtWipe | AtDitto | AtWriteReceipt.

(** [Returned status]: the promise resolves with [{status}];
    [Thrown step]: it rejects, the exception coming from [step]. *)
Inductive Completion :=
| Returned (status : string)
| Thrown (step : Step).

Definition join (dir file : string) : string := dir +:+ "/" +:+ file.

(** Lines 79-88: [destFiles] after the [try] block. *)
Definition receiptFiles (r : ReceiptFile) : list string :=
  match r with
  | Receipt _ (Some files) => files
  | Receipt _ None => []
  | NoReceipt | Unparsable => []
  end.

Definition globDest (d : Disk) : list string := elements (dest d).

(** Lines 89-92: the previous file set. *)
Definition destFiles (d : Disk) : list string :=
  let fromReceipt := receiptFiles (receipt d) in
  if bool_decide (length fromReceipt = 0%nat) then globDest d else fromReceipt.

Definition dinosaurs (d : Disk) : list string :=
  Underscore.difference (destFiles d) (stage d).

(** [bluebird.map(dinosaurs, rel => butler.wipe(join(destPath, rel)),
    {concurrency: 4})]: the files that are wiped, and whether the map
    resolves. It resolves when every wipe succeeds. *)
Definition wipeAll (o : Outcomes) (dinos : list string) : list string * bool :=
  if forallb (wipe_ok o) dinos then (dinos, true)
  else (List.filter (fun rel => wipe_ok o rel && wipe_done o rel) dinos, false).

Definition with_dest (d : Disk) (files : gset string) : Disk :=
  {| stage := stage d; staged_receipt := staged_receipt d; dest := files;
     receipt := receipt d |}.

Definition with_receipt (d : Disk) (r : ReceiptFile) : Disk :=
  {| stage := stage d; staged_receipt := staged_receipt d; dest := dest d;
     receipt := r |}.

(** The disk once the files [gone] are wiped: with the receipt file goes
    the receipt. *)
Definition wiped (d : Disk) (gone : list string) : Disk :=
  with_receipt (with_dest d (dest d ∖ list_to_set gone))
    (if bool_decide (receiptRel ∈ gone) then NoReceipt else receipt d).

(** The disk once [butler.ditto] has copied the staged files [files]. *)
Definition merged (d : Disk) (files : list string) : Disk :=
  with_receipt (with_dest d (dest d ∪ list_to_set files))
    (if bool_decide (receiptRel ∈ files) then staged_receipt d else receipt d).

(** The disk once [sf.writeFile] has written [r] to the receipt file. *)
Definition written (d : Disk) (r : ReceiptFile) : Disk :=
  with_receipt (with_dest d (dest d ∪ {[ receiptRel ]})) r.

(** The disk after a [sf.writeFile] that failed. *)
Definition torn (o : Outcomes) (d : Disk) : Disk :=
  match torn_receipt o with
  | NoReceipt => d
  | r => written d r
  end.

(** Lines 74-122, after the single-file special case. *)
Definition deployGeneric (opts : IDeployOpts) (o : Outcomes) (d : Disk)
  : Disk * Completion :=
  let stageFiles := stage d in
  if negb (mkdir_ok o) then (d, Thrown AtMkdir) else
  if negb (logger opts) then (d, Thrown AtLogger) else   (* [logger.info] *)
  let '(gone, resolved) := wipeAll o (dinosaurs d) in
  let d1 := wiped d gone in
  if negb resolved then (d1, Thrown AtWipe) else
  if negb (ditto_ok o) then (merged d1 (ditto_copied o), Thrown AtDitto) else
  let d2 := merged d1 stageFiles in
  if negb (write_ok o) then (torn o d2, Thrown AtWriteReceipt)
  else (written d2 (Receipt (cave opts) (Some stageFiles)), Returned "ok").

Definition deploy (opts : IDeployOpts) (o : Outcomes) (d : Disk)
  : Disk * Completion :=
  let onSingle := default singlenoop (onSingle opts) in
  if negb (glob_stage_ok o) then (d, Thrown AtGlobStage) else
  match stage d with
  | [onlyFile] =>
      match onSingle (join (stagePath opts) onlyFile) with
      | SingleThrows => (d, Thrown AtSingle)
      | SingleReturns true => (d, Returned "ok")
      | SingleReturns false => deployGeneric opts o d
      end
  | _ => deployGeneric opts o d
  end.

(** The single-file special case applies: there is one staged file and
    the listener reports that it has deployed it. *)
Definition short_circuits (opts : IDeployOpts) (d : Disk) : bool :=
  match stage d with
  | [onlyFile] =>
      match default singlenoop (onSingle opts) (join (stagePath opts) onlyFile) with
      | SingleReturns true => true
      | _ => false
      end
  | _ => false
  end.

(** The receipt is missing, cannot be parsed, or lists no files. *)
Definition lists_no_files (r : ReceiptFile) : Prop :=
  r = NoReceipt ∨ r = Unparsable ∨ ∃ c, r = Receipt c None ∨ r = Receipt c (Some []).

(** All calls to [sf] and to butler succeed. *)
Definition all_ok : Outcomes :=
  {| glob_stage_ok := true; mkdir_ok := true; wipe_ok := fun _ => true;
     wipe_done := fun _ => true; ditto_ok := true; ditto_copied := [];
     write_ok := true; torn_receipt := Unparsable |}.

End Deploy.

(** ** reactors/tasks/as-task (part_002) *)

Module AsTask.
Import Types.

Inductive TaskName := install | uninstall | configure | launch.

Inductive Warning :=
| CouldNotCloseLogger
| TaskCancelled (name : TaskName)
| TaskAborted (name : TaskName)
| TaskThrew (name : TaskName) (stack : option string).

Inductive Effect :=
| DispatchTaskStarted (id : string) (name : TaskName) (gameId : Z)
| RegisterTask (id : string)       (* getCurrentTasks()[id] = ctx *)
| RunWork
| UnregisterTask (id : string)     (* delete getCurrentTasks()[id] *)
| CloseLogger
| Warn (w : Warning)
| CallOnError (e : JsError) (log : string)
| DispatchTaskEnded (id : string) (err : option string).

(** The [onError] callback: [None] when the promise it returns resolves,
    the error it rejects with otherwise. *)
Definition OnError := JsError → string → option JsError.

Record IAsTaskOpts := mkOpts {
  name : TaskName;
  gameId : Z;
  onError : option OnError;
}.

(** One run: the id [uuid()] gave, how [work] ended, what it left in the
    memory log, and whether [logger.close()] threw. *)
Record Run := mkRun {
  id : string;
  work_error : option JsError;
  memlog : string;
  close_throws : bool;
}.

(** Lines 33-72: the task is announced and registered, the work runs, the
    task is taken out of the current tasks and the logger is closed. *)
Definition cleaned_up (opts : IAsTaskOpts) (r : Run) : list Effect :=
  [ DispatchTaskStarted (id r) (name opts) (gameId opts);
    RegisterTask (id r);
    RunWork;
    UnregisterTask (id r);
    CloseLogger ].

(** The effects of the run, and the error [asTask] rejects with, if any. *)
Definition asTask (opts : IAsTaskOpts) (r : Run) : list Effect * option JsError :=
  let before :=
    cleaned_up opts r
    ++ (if close_throws r then [Warn CouldNotCloseLogger] else []) in
  let ended :=
    DispatchTaskEnded (id r)
      (match work_error r with Some e => Some (to_string e) | None => None end) in
  match work_error r with
  | None => (before ++ [ended], None)
  | Some err =>
      if isCancelled (Some err) then
        (before ++ [Warn (TaskCancelled (name opts)); ended], None)
      else if isAborted (Some err) then
        (before ++ [Warn (TaskAborted (name opts)); ended], None)
      else
        match onError opts with
        | None =>
            (before ++ [Warn (TaskThrew (name opts) (stack err)); ended], None)
        | Some cb =>
            match cb err (memlog r) with
            | None =>
                (before ++ [Warn (TaskThrew (name opts) (stack err));
                            CallOnError err (memlog r); ended], None)
            | Some thrown =>
                (before ++ [Warn (TaskThrew (name opts) (stack err));
                            CallOnError err (memlog r)], Some thrown)
            end
        end
  end.

Definition is_ended (e : Effect) : bool :=
  match e with DispatchTaskEnded _ _ => true | _ => false end.

Definition is_onError (e : Effect) : bool :=
  match e with CallOnError _ _ => true | _ => false end.

(** The error to hand to the callback, in the words of the spec: the one
    the work threw, when it is neither a cancellation nor an abort and a
    callback was supplied. *)
Definition to_report (opts : IAsTaskOpts) (r : Run) : option JsError :=
  match work_error r, onError opts with
  | Some e, Some _ =>
      if isCancelled (Some e) || isAborted (Some e) then None else Some e
  | _, _ => None
  end.

(** The callback, if there is one, resolves whenever it is called. *)
Definition callback_resolves (opts : IAsTaskOpts) : Prop :=
  ∀ cb e log, onError opts = Some cb → cb e log = None.

End AsTask.

(** ** reactors/game-updates (part_003, first file) *)

Module UpdateCheck.

(** truthiness of a number that may be missing *)
Definition truthy (n : option Z) : bool :=
  match n with
  | Some z => negb (bool_decide (z = 0))
  | None => false
  end.

Record IGameRecord := mkGame { g_id : Z; title : string }.

(** [ICaveRecord]; [installedBy] is reduced to the user id it carries,
    [installedAt] to the instant it denotes. *)
Record ICaveRecord := mkCave {
  c_id : string;
  installedBy : option Z;
  launchable : bool;
  gameId : option Z;
  uploadId : option Z;
  buildId : option Z;
  installedAt : option Z;
  downloadKey : option Z;
}.

(** What the check can throw: the [TypeError] of a property read on
    [null] or [undefined], or the [ReferenceError] of an identifier that
    is not bound. *)
Inductive Thrown :=
| TypeError (property : string)
| ReferenceError (name : string).


Record IUpdateCheckResult := mkResult {
  err : option Thrown;
  game : option IGameRecord;
  hasUpgrade : option bool;
}.

(** What the check reads from the store: [state.session.credentials],
    [None] when it is [null]; otherwise its [me], reduced to the user id
    ([None] when [me] is missing). *)
Record World := mkWorld {
  credentials : option (option Z);
}.

Inductive Completion :=
| Returns (r : IUpdateCheckResult)
| Throws (e : Thrown).





End UpdateCheck.

(** ** reactors/launch (part_003, second file) *)

Module Launch.

Record Game := mkGame { g_id : Z; title : string }.

(** The [upload] and [build] of a cave are passed on as they are. *)
Record ICave := mkCave {
  cave_id : string;
  morphing : bool;
  upload : option Z;
  build : option Z;
}.

Record IQueueDownloadOpts := mkQueue {
  q_caveId : string;
  q_game : Game;
  q_reason : Downloads.DownloadReason;
  q_upload : option Z;
  q_build : option Z;
}.

Inductive Effect :=
| StatusRepairing (title : string)
| QueueDownload (opts : IQueueDownloadOpts)
| LogLaunching (title : string)
| GetGameCredentials
| MakeButlerInstance
| ButlerLaunch (cave : ICave)        (* client.call(messages.Launch(...)) *)
| CancelInstance
| SaveLastTouched (caveId : string).

(** What the launch path meets: whether the game has credentials,
    whether the butler process ends well, whether a stop was asked. The
    handlers for butler's requests and notifications are not modelled. *)
Record World := mkWorld {
  has_credentials : bool;
  butler_fails : bool;
  stop_requested : bool;
}.

Inductive Completion := Returns | ThrowsError | ThrowsCancelled.

(** Lines 409-697: the launch itself, when the butler client connects:
    the [Launch] call is made; a stop, if one is asked, cancels the
    instance while the call is pending; the [finally] block cancels the
    instance and saves the cave. *)
Definition launchPath (w : World) (cave : ICave) (game : Game)
  : list Effect * Completion :=
  if negb (has_credentials w)
  then ([LogLaunching (title game); GetGameCredentials], ThrowsError)
  else
    let effs :=
      [LogLaunching (title game); GetGameCredentials; MakeButlerInstance;
       ButlerLaunch cave]
      ++ (if stop_requested w then [CancelInstance] else [])
      ++ [CancelInstance; SaveLastTouched (cave_id cave)] in
    if butler_fails w then (effs, ThrowsError)
    else if stop_requested w then (effs, ThrowsCancelled)
    else (effs, Returns).

Definition performLaunch (w : World) (cave : ICave) (game : Game)
  : list Effect * Completion :=
  if morphing cave then
    ([StatusRepairing (title game);
      QueueDownload {| q_caveId := cave_id cave; q_game := game;
                       q_reason := Downloads.heal;
                       q_upload := upload cave; q_build := build cave |}],
     Returns)
  else launchPath w cave game.

(** The effects that belong to launching only. *)
Definition is_launch_effect (e : Effect) : bool :=
  match e with
  | StatusRepairing _ | QueueDownload _ => false
  | _ => true
  end.

End Launch.

(** ** reactors/tasks/revert-cave: the handler of [revertCaveRequest] *)

Module Revert.
Import Types.

(** truthiness of a number that may be missing *)
Definition truthy (n : option Z) : bool :=
  match n with
  | Some z => negb (bool_decide (z = 0))
  | None => false
  end.

Record Game := mkGame { g_id : Z; title : string }.

Record Upload := mkUpload { u_id : Z }.

(** A build as [listBuilds] gives it; only [id] is looked at. *)
Record Build := mkBuild { b_id : Z; version : Z }.

Record ICaveRecord := mkCave {
  cave_id : string;
  gameId : option Z;
  upload : option Upload;
  build : option Build;
}.

Record IQueueDownloadOpts := mkQueue {
  q_caveId : string;
  q_game : Game;
  q_upload : Upload;
  q_build : Build;
  q_reason : Downloads.DownloadReason;
}.

Inductive Effect :=
| LazyGetGame (gameId : option Z)
| GetGameCredentials
| ListBuilds (downloadKey : option Z) (uploadId : Z)
| ShowModal (title : string) (remoteBuilds : list Build)
| QueueDownload (opts : IQueueDownloadOpts).

(** What the work throws: the error of a call that rejected, the
    [TypeError] of a property read on [null], or the error of line 108. *)
Inductive Failure :=
| Rejected (e : JsError)
| NullDereference
| PickedBuildNotFound (buildId : option Z) (remoteBuilds : list Build).

(** What the handler meets: the cave [db.caves.findOneById] gives, the
    result of [lazyGetGame], the result of [getGameCredentials] (reduced
    to its [downloadKey]), the key of the session's credentials, the
    builds [listBuilds] gives, and the answer to the modal (reduced to its
    [revertBuildId]; [None] when the modal was closed). *)
Record World := mkWorld {
  found_cave : option ICaveRecord;
  got_game : JsError + option Game;
  game_credentials : JsError + option (option Z);
  credentials : option string;
  buildsList : JsError + list Build;
  response : option (option Z);
}.

(** Lines 73-75: the builds older than the current one. *)
Definition remoteBuilds (builds : list Build) (currentBuild : Build)
  : list Build :=
  List.filter (fun remoteBuild => bool_decide (b_id remoteBuild < b_id currentBuild))
              builds.

(** Lines 99-106: the loop keeps the last build whose id is [buildId]. *)
Definition pickedBuild (remote : list Build) (buildId : option Z)
  : option Build :=
  fold_left (fun picked b =>
               if bool_decide (Some (b_id b) = buildId) then Some b else picked)
            remote None.

(** Lines 41-124: the [work] of the task. *)
Definition work (w : World) (cave : ICaveRecord)
  : list Effect * option Failure :=
  let e1 := [LazyGetGame (gameId cave)] in
  match got_game w with
  | inl e => (e1, Some (Rejected e))
  | inr game =>
  match upload cave with
  | None => (e1, None)
  | Some upload =>
  match build cave with
  | None => (e1, None)
  | Some currentBuild =>
  let e2 := e1 ++ [GetGameCredentials] in
  match game_credentials w with
  | inl e => (e2, Some (Rejected e))
  | inr gameCredentials =>
  match credentials w with
  | None => (e2, None)
  | Some _ =>
  match gameCredentials with
  | None => (e2, Some NullDereference)   (* [gameCredentials.downloadKey] *)
  | Some downloadKey =>
  let e3 := e2 ++ [ListBuilds downloadKey (u_id upload)] in
  match buildsList w with
  | inl e => (e3, Some (Rejected e))
  | inr builds =>
  let remote := remoteBuilds builds currentBuild in
  match game with
  | None => (e3, Some NullDereference)   (* [game.title] *)
  | Some game =>
  let e4 := e3 ++ [ShowModal (title game) remote] in
  match response w with
  | None => (e4, None)   (* modal was closed *)
  | Some buildId =>
  match pickedBuild remote buildId with
  | None => (e4, Some (PickedBuildNotFound buildId remote))
  | Some picked =>
      (e4 ++ [QueueDownload {| q_caveId := cave_id cave; q_game := game;
                               q_upload := upload; q_build := picked;
                               q_reason := Downloads.revert |}],
       None)
  end end end end end end end end end end.

(** Lines 20-127: the handler; [None] when it returns without running a
    task, otherwise the options it gives to [asTask] and what the work
    does. *)
Definition revertCaveRequest (w : World)
  : option (AsTask.IAsTaskOpts * (list Effect * option Failure)) :=
  match found_cave w with
  | None => None
  | Some cave =>
      if negb (truthy (gameId cave)) then None
      else Some ({| AsTask.name := AsTask.install;
                    AsTask.gameId := default 0 (gameId cave);
                    AsTask.onError := None |},
                 work w cave)
  end.

Definition is_queue (e : Effect) : bool :=
  match e with QueueDownload _ => true | _ => false end.

End Revert.

(** ** sample data for the examples below *)

Module Samples.
Import Downloads Types DownloadWatcher.

Definition item_a : IDownloadItem :=
  {| id := "a"; game_id := 1; caveId := None; reason := install; rank := 0;
     finished := true; progress := None; bps := None; eta := None;
     finishedAt := None; err := Some "boom"; errStack := None |}.

Definition item_b : IDownloadItem :=
  {| id := "b"; game_id := 2; caveId := None; reason := update; rank := -1;
     finished := false; progress := None; bps := None; eta := None;
     finishedAt := None; err := None; errStack := None |}.

Definition two_items : IDownloadsState :=
  with_items initialState (<["a" := item_a]> (<["b" := item_b]> ∅)).

Definition world_two_items : World := with_downloads initialWorld two_items.

Definition some_actions : list Action :=
  [DownloadStarted {| id := "x"; game_id := 1; caveId := None;
                      reason := install; rank := 0; finished := false;
                      progress := None; bps := None; eta := None;
                      finishedAt := None; err := None; errStack := None |};
   DownloadStarted {| id := "y"; game_id := 2; caveId := None;
                      reason := update; rank := 0; finished := false;
                      progress := None; bps := None; eta := None;
                      finishedAt := None; err := None; errStack := None |};
   ResumeDownloads; PrioritizeDownload "x"; DownloadSpeedDatapoint 512;
   DownloadDiscarded "y"].

Definition state_after (actions : list Action) : IDownloadsState :=
  default initialState (reduceAll initialState actions).

(** A fresh download of game [g], as [queueDownload] hands it over. *)
Definition fresh (i : string) (g : Z) : IDownloadItem :=
  {| id := i; game_id := g; caveId := None; reason := install; rank := 0;
     finished := false; progress := None; bps := None; eta := None;
     finishedAt := None; err := None; errStack := None |}.

(** Two games are queued, the first one before the queue is resumed and
    a tick, the second one after; then comes another tick. *)
Definition first_going : list Event :=
  [Reduce (DownloadStarted (fresh "x" 1)); Reduce ResumeDownloads; Tick].

Definition second_queued : list Event :=
  first_going ++ [Reduce (DownloadStarted (fresh "y" 2))].

Definition second_going : list Event := second_queued ++ [Tick].

Definition world_after (es : list Event) : World :=
  default initialWorld (run initialWorld es).

(** The queue after [second_going], paused. *)
Definition then_paused : list Event := second_going ++ [Reduce PauseDownloads].

(** The handle of the download that runs after [second_going]. *)
Definition running_y : IDownloadHandle :=
  {| h_item := {| id := "y"; game_id := 2; caveId := None; reason := install;
                  rank := -1; finished := false; progress := None;
                  bps := None; eta := None; finishedAt := None;
                  err := None; errStack := None |};
     h_ctx := 1 |}.

(** The first download is paused and resumed before its cancelled run has
    settled: it is started again, in a new context. *)
Definition restarted : list Event :=
  first_going ++ [Reduce PauseDownloads; Tick; Reduce ResumeDownloads; Tick].

Definition handle_x (c : nat) : IDownloadHandle :=
  {| h_item := zero_bps (fresh "x" 1); h_ctx := c |}.

(** The failed install of [two_items] is discarded while nothing runs. *)
Definition failed_install_discarded : World :=
  default initialWorld (run (boot two_items) [Discard "a"]).

Definition cancelled_error : JsError :=
  {| cancelled_kind := true; aborted_kind := false; message := "Cancelled";
     to_string := "Error: Cancelled"; stack := None |}.

Definition aborted_error : JsError :=
  {| cancelled_kind := false; aborted_kind := true; message := "Aborted";
     to_string := "Error: Aborted"; stack := None |}.

Definition plain_error : JsError :=
  {| cancelled_kind := false; aborted_kind := false; message := "ENOSPC";
     to_string := "Error: ENOSPC"; stack := Some "at write" |}.

(** A destination left by an earlier deploy of [a], [b], [c], with its
    receipt, and a stage with [b], [c], [d]. *)
Definition abc_then_bcd : Deploy.Disk :=
  {| Deploy.stage := ["b"; "c"; "d"];
     Deploy.staged_receipt := Deploy.NoReceipt;
     Deploy.dest := list_to_set ["a"; "b"; "c"] ∪ {[ Deploy.receiptRel ]};
     Deploy.receipt := Deploy.Receipt None (Some ["a"; "b"; "c"]) |}.

Definition plain_opts : Deploy.IDeployOpts :=
  {| Deploy.stagePath := "/tmp/stage"; Deploy.destPath := "/games/x";
     Deploy.cave := Some "cave-1"; Deploy.onSingle := None;
     Deploy.logger := true |}.

(** A listener that installs the one staged file itself. *)
Definition hooked_opts : Deploy.IDeployOpts :=
  {| Deploy.stagePath := "/tmp/stage"; Deploy.destPath := "/games/x";
     Deploy.cave := Some "cave-1";
     Deploy.onSingle := Some (fun _ => Deploy.SingleReturns true);
     Deploy.logger := true |}.

Definition one_staged : Deploy.Disk :=
  {| Deploy.stage := ["setup.exe"];
     Deploy.staged_receipt := Deploy.NoReceipt;
     Deploy.dest := list_to_set ["old.dat"] ∪ {[ Deploy.receiptRel ]};
     Deploy.receipt := Deploy.Receipt None (Some ["old.dat"]) |}.

Definition lone_staged : Deploy.Disk :=
  {| Deploy.stage := ["d"];
     Deploy.staged_receipt := Deploy.NoReceipt;
     Deploy.dest := list_to_set ["a"; "b"; "c"] ∪ {[ Deploy.receiptRel ]};
     Deploy.receipt := Deploy.Receipt None (Some ["a"; "b"; "c"]) |}.

(** A destination with files but no receipt. *)
Definition no_receipt : Deploy.Disk :=
  {| Deploy.stage := ["b"; "c"];
     Deploy.staged_receipt := Deploy.NoReceipt;
     Deploy.dest := list_to_set ["a"; "b"];
     Deploy.receipt := Deploy.NoReceipt |}.

(** A destination whose receipt file cannot be parsed. *)
Definition unparsable_receipt : Deploy.Disk :=
  {| Deploy.stage := ["game.exe"; "data.bin"];
     Deploy.staged_receipt := Deploy.NoReceipt;
     Deploy.dest := list_to_set ["old.dat"] ∪ {[ Deploy.receiptRel ]};
     Deploy.receipt := Deploy.Unparsable |}.

(** The merge fails before it has copied a file; the write of the receipt
    fails and leaves a file that cannot be parsed. *)
Definition merge_fails : Deploy.Outcomes :=
  {| Deploy.glob_stage_ok := true; Deploy.mkdir_ok := true;
     Deploy.wipe_ok := fun _ => true; Deploy.wipe_done := fun _ => true;
     Deploy.ditto_ok := false; Deploy.ditto_copied := [];
     Deploy.write_ok := true; Deploy.torn_receipt := Deploy.Unparsable |}.

Definition write_fails : Deploy.Outcomes :=
  {| Deploy.glob_stage_ok := true; Deploy.mkdir_ok := true;
     Deploy.wipe_ok := fun _ => true; Deploy.wipe_done := fun _ => true;
     Deploy.ditto_ok := true; Deploy.ditto_copied := [];
     Deploy.write_ok := false; Deploy.torn_receipt := Deploy.Unparsable |}.

Definition callback_error : JsError :=
  {| cancelled_kind := false; aborted_kind := false; message := "dialog failed";
     to_string := "Error: dialog failed"; stack := None |}.

(** A task whose [onError] callback rejects, one whose callback resolves,
    and a run in which the work throws. *)
Definition rejecting_opts : AsTask.IAsTaskOpts :=
  {| AsTask.name := AsTask.install; AsTask.gameId := 7;
     AsTask.onError := Some (fun _ _ => Some callback_error) |}.

Definition reporting_opts : AsTask.IAsTaskOpts :=
  {| AsTask.name := AsTask.install; AsTask.gameId := 7;
     AsTask.onError := Some (fun _ _ => None) |}.

Definition failing_run : AsTask.Run :=
  {| AsTask.id := "t1"; AsTask.work_error := Some plain_error;
     AsTask.memlog := "unpacking"; AsTask.close_throws := false |}.




(** A cave at build 12 of upload 3, the builds the server lists for it,
    and a user who picks build 11. *)
Definition cave_build_12 : Revert.ICaveRecord :=
  {| Revert.cave_id := "cave-1"; Revert.gameId := Some 9;
     Revert.upload := Some {| Revert.u_id := 3 |};
     Revert.build := Some {| Revert.b_id := 12; Revert.version := 4 |} |}.

Definition listed_builds : list Revert.Build :=
  [ {| Revert.b_id := 13; Revert.version := 5 |};
    {| Revert.b_id := 12; Revert.version := 4 |};
    {| Revert.b_id := 11; Revert.version := 3 |};
    {| Revert.b_id := 10; Revert.version := 2 |} ].

Definition revert_world (answer : option (option Z)) : Revert.World :=
  {| Revert.found_cave := Some cave_build_12;
     Revert.got_game := inr (Some {| Revert.g_id := 9; Revert.title := "Overland" |});
     Revert.game_credentials := inr (Some (Some 77));
     Revert.credentials := Some "key";
     Revert.buildsList := inr listed_builds;
     Revert.response := answer |}.

Definition morphing_cave : Launch.ICave :=
  {| Launch.cave_id := "cave-1"; Launch.morphing := true;
     Launch.upload := Some 3; Launch.build := Some 5 |}.

Definition launch_world : Launch.World :=
  {| Launch.has_credentials := true; Launch.butler_fails := false;
     Launch.stop_requested := false |}.

Definition the_launch_game : Launch.Game :=
  {| Launch.g_id := 9; Launch.title := "Overland" |}.

End Samples.

(** * Properties *)

(** ** underscore *)

Section UnderscoreFacts.
Context {A : Type} (f : A → Z).

Lemma min_step_le acc v :
  f (Underscore.min_step f acc v) ≤ f acc ∧ f (Underscore.min_step f acc v) ≤ f v.
Proof. unfold Underscore.min_step. case_bool_decide; lia. Qed.

Lemma min_le_init l x : f (Underscore.min f x l) ≤ f x.
Proof.
  unfold Underscore.min. revert x.
  induction l as [|v l IH]; intros x; simpl; [lia|].
  pose proof (IH (Underscore.min_step f x v)).
  pose proof (min_step_le x v). lia.
Qed.

Lemma min_le_elem l x y : y ∈ l → f (Underscore.min f x l) ≤ f y.
Proof.
  unfold Underscore.min. revert x.
  induction l as [|v l IH]; intros x Hy; [by apply elem_of_nil in Hy|].
  apply elem_of_cons in Hy as [->|Hy]; simpl.
  - pose proof (min_le_init l (Underscore.min_step f x v)) as H.
    unfold Underscore.min in H. pose proof (min_step_le x v). lia.
  - by apply IH.
Qed.

Lemma min_le l x y : y ∈ x :: l → f (Underscore.min f x l) ≤ f y.
Proof.
  intros [->|Hy]%elem_of_cons; [apply min_le_init | by apply min_le_elem].
Qed.

Lemma min_elem l x : Underscore.min f x l ∈ x :: l.
Proof.
  unfold Underscore.min. revert x.
  induction l as [|v l IH]; intros x; simpl; [apply list_elem_of_here|].
  specialize (IH (Underscore.min_step f x v)).
  apply elem_of_cons in IH as [IH|IH].
  - rewrite IH. unfold Underscore.min_step. case_bool_decide.
    + apply list_elem_of_further, list_elem_of_here.
    + apply list_elem_of_here.
  - by do 2 apply list_elem_of_further.
Qed.

Lemma max_step_ge acc v :
  f acc ≤ f (Underscore.max_step f acc v) ∧ f v ≤ f (Underscore.max_step f acc v).
Proof. unfold Underscore.max_step. case_bool_decide; lia. Qed.

Lemma max_ge_init l x : f x ≤ f (Underscore.max f x l).
Proof.
  unfold Underscore.max. revert x.
  induction l as [|v l IH]; intros x; simpl; [lia|].
  pose proof (IH (Underscore.max_step f x v)).
  pose proof (max_step_ge x v). lia.
Qed.

Lemma max_ge l x y : y ∈ x :: l → f y ≤ f (Underscore.max f x l).
Proof.
  revert x. induction l as [|v l IH]; intros x Hy.
  - apply list_elem_of_singleton in Hy as ->. apply max_ge_init.
  - apply elem_of_cons in Hy as [->|Hy]; [apply max_ge_init|].
    unfold Underscore.max in *. simpl.
    apply elem_of_cons in Hy as [->|Hy].
    + pose proof (max_ge_init l (Underscore.max_step f x v)) as H.
      unfold Underscore.max in H. pose proof (max_step_ge x v). lia.
    + apply IH. by apply list_elem_of_further.
Qed.

Lemma elem_of_values (m : gmap string A) (x : A) :
  x ∈ Underscore.values m ↔ ∃ k, m !! k = Some x.
Proof.
  unfold Underscore.values. rewrite list_elem_of_fmap. split.
  - intros [[k v] [-> Hkv]]. exists k. by apply elem_of_map_to_list.
  - intros [k Hk]. exists (k, x). split; [done|]. by apply elem_of_map_to_list.
Qed.

End UnderscoreFacts.

(** ** reducers/downloads *)

Section DownloadsFacts.
Import Downloads Samples.

Lemma higherPriorityRank_lt (s : IDownloadsState) (j : string) (x : IDownloadItem) :
  items s !! j = Some x → higherPriorityRank s < rank x.
Proof.
  intros Hj. unfold higherPriorityRank.
  assert (Hx : x ∈ Underscore.values (items s)) by (apply elem_of_values; eauto).
  destruct (Underscore.values (items s)) as [|y l]; [by apply elem_of_nil in Hx|].
  pose proof (min_le rank l y x Hx). lia.
Qed.

Lemma lowerPriorityRank_gt (s : IDownloadsState) (j : string) (x : IDownloadItem) :
  items s !! j = Some x → rank x < lowerPriorityRank s.
Proof.
  intros Hj. unfold lowerPriorityRank.
  assert (Hx : x ∈ Underscore.values (items s)) by (apply elem_of_values; eauto).
  destruct (Underscore.values (items s)) as [|y l]; [by apply elem_of_nil in Hx|].
  pose proof (max_ge rank l y x Hx). lia.
Qed.

Lemma updateSingle_known s r item :
  items s !! p_id r = Some item →
  items (updateSingle s r) = <[p_id r := spread item r]> (items s)
  ∧ paused (updateSingle s r) = paused s.
Proof. intros H. unfold updateSingle. by rewrite H. Qed.

Lemma updateSingle_unknown s r :
  items s !! p_id r = None → updateSingle s r = s.
Proof. intros H. unfold updateSingle. by rewrite H. Qed.

(** C2. When the downloads state has an item for [i]: [prioritizeDownload]
    gives that item a rank strictly below the rank of every item of the
    state it was called on, [retryDownload] gives it a rank strictly above
    all of them and clears its [finished] flag; the other items keep their
    entry. *)
Theorem rank_ordering_laws (s : IDownloadsState) (i : string) (it : IDownloadItem) :
  items s !! i = Some it →
  (∃ it', items (prioritizeDownload s i) !! i = Some it'
          ∧ (∀ j x, items s !! j = Some x → rank it' < rank x)
          ∧ (∀ j, j ≠ i → items (prioritizeDownload s i) !! j = items s !! j))
  ∧ (∃ s' it', retryDownload s i = Some s'
          ∧ items s' !! i = Some it'
          ∧ finished it' = false
          ∧ (∀ j x, items s !! j = Some x → rank x < rank it')
          ∧ (∀ j, j ≠ i → items s' !! j = items s !! j)).
Proof.
  intros Hi. split.
  - unfold prioritizeDownload.
    set (r := {| p_id := i; p_rank := Some (higherPriorityRank s) |}).
    destruct (updateSingle_known s r it Hi) as [Hitems _].
    exists (spread it r). rewrite Hitems. simpl. split_and!.
    + apply lookup_insert_eq.
    + intros j x Hj. by eapply higherPriorityRank_lt.
    + intros j Hne. by apply lookup_insert_ne.
  - unfold retryDownload. rewrite Hi.
    set (r := {| p_id := i; p_rank := Some (lowerPriorityRank s) |}).
    destruct (updateSingle_known s r it Hi) as [Hitems _].
    exists (updateSingle s r), (spread it r). rewrite Hitems. simpl. split_and!.
    + done.
    + apply lookup_insert_eq.
    + done.
    + intros j x Hj. by eapply lowerPriorityRank_gt.
    + intros j Hne. by apply lookup_insert_ne.
Qed.

Lemma rank_ordering_laws_witness :
  (∃ it', items (prioritizeDownload two_items "a") !! "a" = Some it'
          ∧ (∀ j x, items two_items !! j = Some x → rank it' < rank x)
          ∧ (∀ j, j ≠ "a" → items (prioritizeDownload two_items "a") !! j
                             = items two_items !! j))
  ∧ (∃ s' it', retryDownload two_items "a" = Some s'
          ∧ items s' !! "a" = Some it'
          ∧ finished it' = false
          ∧ (∀ j x, items two_items !! j = Some x → rank x < rank it')
          ∧ (∀ j, j ≠ "a" → items s' !! j = items two_items !! j)).
Proof. apply (rank_ordering_laws two_items "a" item_a). reflexivity. Defined.

Example prioritize_two_items :
  rank <$> items (prioritizeDownload two_items "a") !! "a" = Some (-2).
Proof. reflexivity. Qed.

Example retry_two_items :
  (s' ← retryDownload two_items "a"; it ← items s' !! "a"; Some (rank it, finished it))
  = Some (1, false).
Proof. reflexivity. Qed.

(** *** operations on an id that has no item *)

Lemma downloadProgress_unknown s r :
  items s !! p_id r = None → baseReducer s (DownloadProgress r) = Some s.
Proof. intros H. simpl. unfold downloadProgress. by rewrite updateSingle_unknown. Qed.

Lemma prioritizeDownload_unknown s i :
  items s !! i = None → baseReducer s (PrioritizeDownload i) = Some s.
Proof. intros H. simpl. unfold prioritizeDownload. by rewrite updateSingle_unknown. Qed.

Lemma downloadDiscarded_unknown s i :
  items s !! i = None → baseReducer s (DownloadDiscarded i) = Some s.
Proof. intros H. simpl. unfold downloadDiscarded. by rewrite H. Qed.

Lemma downloadEnded_unknown s p :
  items s !! e_id p = None → baseReducer s (DownloadEnded p) = Some s.
Proof. intros H. simpl. unfold downloadEnded. by rewrite updateSingle_unknown. Qed.

Lemma discardDownload_unknown (w : DownloadWatcher.World) i :
  items (DownloadWatcher.downloads w) !! i = None →
  DownloadWatcher.discardDownload w i = w.
Proof. intros H. unfold DownloadWatcher.discardDownload. by rewrite H. Qed.

(** For an id that has no item, the handler of [retryDownload] does not
    return the state it was given: it returns [undefined]. *)
Lemma retryDownload_unknown (s : IDownloadsState) (i : string) :
  items s !! i = None →
  baseReducer s (RetryDownload i) = None.
Proof. intros H. simpl. unfold retryDownload. by rewrite H. Qed.

(** C10. On a state with the items [a] and [b] and for the id [zzz], which
    has no item: the handlers of [downloadProgress], [prioritizeDownload]
    and [downloadDiscarded] return the state they were given and the
    handler of [discardDownload] leaves the world as it is, but the
    handler of [retryDownload] returns [undefined] and not the state. *)
Theorem retry_of_unknown_id_returns_undefined :
  items two_items !! "zzz" = None
  ∧ baseReducer two_items (RetryDownload "zzz") = None
  ∧ baseReducer two_items (RetryDownload "zzz") ≠ Some two_items
  ∧ baseReducer two_items
      (DownloadProgress {| p_id := "zzz"; p_rank := None; p_finished := None;
                           p_progress := Some (Some 1); p_bps := Some None;
                           p_eta := Some None; p_finishedAt := None;
                           p_err := None; p_errStack := None |})
    = Some two_items
  ∧ baseReducer two_items (PrioritizeDownload "zzz") = Some two_items
  ∧ baseReducer two_items (DownloadDiscarded "zzz") = Some two_items
  ∧ DownloadWatcher.discardDownload world_two_items "zzz" = world_two_items.
Proof.
  assert (H : items two_items !! "zzz" = None) by reflexivity.
  split_and!; [done| | | | | |].
  - by apply retryDownload_unknown.
  - by rewrite retryDownload_unknown.
  - by apply downloadProgress_unknown.
  - by apply prioritizeDownload_unknown.
  - by apply downloadDiscarded_unknown.
  - by apply discardDownload_unknown.
Qed.

End DownloadsFacts.

(** ** reactors/downloads/download-watcher *)

Section DownloadWatcherFacts.
Import Downloads Types DownloadWatcher Samples.

Lemma getActiveDownload_minimal (s : IDownloadsState) (a : IDownloadItem) :
  getActiveDownload s = Some a → minimal_pending s a.
Proof.
  unfold getActiveDownload, minimal_pending, getPendingDownloads.
  destruct (List.filter _ _) as [|y l] eqn:Hf; [done|].
  intros [= <-].
  assert (Hin : ∀ x, x ∈ y :: l ↔
            x ∈ Underscore.values (items s) ∧ finished x = false).
  { intros x. rewrite <- Hf, !list_elem_of_In, filter_In.
    by rewrite negb_true_iff. }
  pose proof (min_elem rank l y) as Hm. apply Hin in Hm as [Hm1 Hm2].
  split_and!; [done..|].
  intros x Hx Hfin. apply min_le. apply Hin. done.
Qed.

Lemma getActiveDownload_is_Some (s : IDownloadsState) (x : IDownloadItem) :
  x ∈ Underscore.values (items s) → finished x = false →
  is_Some (getActiveDownload s).
Proof.
  intros Hx Hfin. unfold getActiveDownload, getPendingDownloads.
  destruct (List.filter _ _) as [|y l] eqn:Hf; [|by eexists].
  assert (x ∈ @nil IDownloadItem) as H%elem_of_nil; [|done].
  rewrite <- Hf, list_elem_of_In, filter_In, negb_true_iff, <- list_elem_of_In.
  done.
Qed.

(** The invariant only looks at the current handle, the downloads in
    flight, the cancelled contexts and the context counter. *)
Lemma inv_same (w w' : World) :
  current (watcher w') = current (watcher w) →
  inflight w' = inflight w →
  cancel_requested w' = cancel_requested w →
  next_ctx w' = next_ctx w →
  inv w → inv w'.
Proof.
  intros Hc Hi Hr Hn [H1 H2 H3 H4 H5].
  split; rewrite ?Hc, ?Hi, ?Hr, ?Hn; done.
Qed.

Lemma inv_boot (s : IDownloadsState) : inv (boot s).
Proof.
  split; simpl; try done; try set_solver.
  all: try (intros h Hh; by apply elem_of_nil in Hh).
  constructor.
Qed.

Lemma inv_cancelCurrent (w : World) : inv w → inv (cancelCurrent w).
Proof.
  intros Hw. unfold cancelCurrent.
  destruct (current (watcher w)) as [cur|] eqn:Hcur; [|done].
  destruct Hw as [H1 H2 H3 H4 H5]. split; simpl.
  - intros h Hh Hnot. exfalso.
    assert (current (watcher w) = Some h) as E.
    { apply H1; [done|]. intros Hc. apply Hnot, elem_of_union. by right. }
    rewrite Hcur in E. injection E as ->.
    apply Hnot, elem_of_union. left. by apply elem_of_singleton.
  - done.
  - intros c [Hc%elem_of_singleton|Hc]%elem_of_union; [|by apply H3].
    subst c. by apply H2.
  - done.
  - done.
Qed.

Lemma cancelCurrent_current (w : World) : current (watcher (cancelCurrent w)) = None.
Proof. unfold cancelCurrent. by destruct (current (watcher w)) eqn:?. Qed.

Lemma cancelCurrent_frame (w : World) :
  inflight (cancelCurrent w) = inflight w
  ∧ next_ctx (cancelCurrent w) = next_ctx w
  ∧ downloads (cancelCurrent w) = downloads w.
Proof. unfold cancelCurrent. by destruct (current (watcher w)). Qed.

Lemma inv_start (w : World) (item : IDownloadItem) : inv w → inv (start w item).
Proof.
  intros Hw%inv_cancelCurrent. unfold start.
  pose proof (cancelCurrent_current w) as Hnone.
  destruct Hw as [H1 H2 H3 H4 H5]. split; simpl.
  - intros h [Hh|Hh%list_elem_of_singleton]%elem_of_app Hnot; [|by subst].
    rewrite (H1 h Hh Hnot) in Hnone. done.
  - intros h [= <-]. simpl. split; [lia|].
    intros Hc%H3. lia.
  - intros c Hc%H3. lia.
  - intros h [Hh%H4|Hh%list_elem_of_singleton]%elem_of_app; [lia|].
    subst h. simpl. lia.
  - rewrite fmap_app. apply NoDup_app. split_and!; [done| |apply NoDup_singleton].
    intros c [h [-> Hh%H4]]%list_elem_of_fmap Hc%list_elem_of_singleton.
    simpl in Hc. lia.
Qed.

Lemma inv_updateDownloadState (w : World) : inv w → inv (updateDownloadState w).
Proof.
  intros Hw. unfold updateDownloadState.
  destruct (paused (downloads w)).
  - eapply (inv_same (match current (watcher w) with
                      | Some _ => cancelCurrent w | None => w end)); try done.
    destruct (current (watcher w)); [by apply inv_cancelCurrent|done].
  - destruct (getActiveDownload (downloads w)) as [a|].
    + set (w1 := setProgress w _).
      assert (inv w1) by (by eapply inv_same; [..|exact Hw]).
      destruct (current (watcher w1)); [case_bool_decide|]; auto using inv_start.
    + set (w1 := setProgress w _).
      assert (inv w1) by (by eapply inv_same; [..|exact Hw]).
      destruct (current (watcher w1)); auto using inv_cancelCurrent.
Qed.

Lemma cleanupDiscarded_frame (w : World) (item : IDownloadItem) :
  watcher (cleanupDiscarded w item) = watcher w
  ∧ inflight (cleanupDiscarded w item) = inflight w
  ∧ cancel_requested (cleanupDiscarded w item) = cancel_requested w
  ∧ next_ctx (cleanupDiscarded w item) = next_ctx w
  ∧ downloads (cleanupDiscarded w item) = downloads w.
Proof. unfold cleanupDiscarded. by destruct (_ && _). Qed.

Lemma start_finally_frame (w : World) (item : IDownloadItem) error :
  current (watcher (start_finally w item error)) = current (watcher w)
  ∧ inflight (start_finally w item error) = inflight w
  ∧ cancel_requested (start_finally w item error) = cancel_requested w
  ∧ next_ctx (start_finally w item error) = next_ctx w.
Proof.
  unfold start_finally.
  destruct (isCancelled error || isAborted error); [|done].
  destruct (_ || _); [|done].
  match goal with |- context [cleanupDiscarded ?w0 item] =>
    destruct (cleanupDiscarded_frame w0 item) as (-> & -> & -> & -> & _) end.
  by destruct (isAborted error).
Qed.

Lemma discardDownload_frame (w : World) (i : string) :
  current (watcher (discardDownload w i)) = current (watcher w)
  ∧ inflight (discardDownload w i) = inflight w
  ∧ cancel_requested (discardDownload w i) = cancel_requested w
  ∧ next_ctx (discardDownload w i) = next_ctx w.
Proof.
  unfold discardDownload. destruct (items (downloads w) !! i); [|done].
  destruct (handles (watcher w) !! i); simpl; [done|].
  by destruct (cleanupDiscarded_frame w i0) as (-> & -> & -> & -> & _).
Qed.

Lemma inv_remove_inflight (w : World) (ctx : nat) : inv w → inv (remove_inflight w ctx).
Proof.
  intros [H1 H2 H3 H4 H5].
  assert (Hsub : ∀ h, h ∈ inflight (remove_inflight w ctx) → h ∈ inflight w).
  { intros h. simpl. rewrite !list_elem_of_In, filter_In. tauto. }
  split; simpl.
  - intros h Hh. apply Hsub in Hh. auto.
  - done.
  - done.
  - intros h Hh. apply Hsub in Hh. auto.
  - clear -H5. induction (inflight w) as [|h l IH]; simpl; [constructor|].
    apply NoDup_cons in H5 as [Hh Hl].
    destruct (negb _); [|by apply IH].
    simpl. apply NoDup_cons. split; [|by apply IH].
    intros [h' [Heq Hin]]%list_elem_of_fmap. apply Hh.
    apply list_elem_of_fmap. exists h'. split; [done|].
    revert Hin. rewrite !list_elem_of_In, filter_In. tauto.
Qed.

Lemma inv_step (w w' : World) (e : Event) : inv w → step w e = Some w' → inv w'.
Proof.
  intros Hw. destruct e as [a|i| |ctx pr bp et|ctx error]; simpl.
  - destruct (baseReducer _ _); intros [= <-]. by eapply inv_same; [..|exact Hw].
  - intros [= <-]. destruct (discardDownload_frame w i) as (?&?&?&?).
    by eapply inv_same; [..|exact Hw].
  - intros [= <-]. by apply inv_updateDownloadState.
  - destruct (find_inflight _ _); intros [= <-]. by eapply inv_same; [..|exact Hw].
  - destruct (find_inflight _ _) as [h|]; intros [= <-].
    destruct (start_finally_frame (remove_inflight w ctx) (h_item h) error)
      as (?&?&?&?).
    eapply inv_same; [..|exact (inv_remove_inflight w ctx Hw)]; done.
Qed.

Lemma inv_run (es : list Event) (w w' : World) :
  inv w → run w es = Some w' → inv w'.
Proof.
  revert w. induction es as [|e es IH]; intros w Hw; simpl.
  - by intros [= <-].
  - destruct (step w e) as [w1|] eqn:Hs; [|done]. simpl.
    apply IH. by eapply inv_step.
Qed.

Lemma inv_reachable (w : World) : reachable w → inv w.
Proof. intros (s & es & Hes). by eapply inv_run; [apply inv_boot|]. Qed.

Lemma live_unique (w : World) (h1 h2 : IDownloadHandle) :
  inv w → live w h1 → live w h2 → h1 = h2.
Proof.
  intros Hw [Hi1 Hc1] [Hi2 Hc2].
  pose proof (inv_live w Hw h1 Hi1 Hc1) as E1.
  pose proof (inv_live w Hw h2 Hi2 Hc2) as E2.
  congruence.
Qed.

Lemma activeItem_minimal (s : IDownloadsState) (a : IDownloadItem) :
  activeItem s = Some a → paused s = false ∧ minimal_pending s a.
Proof.
  unfold activeItem. destruct (paused s); [done|].
  intros H. split; [done|]. by apply getActiveDownload_minimal.
Qed.

Lemma activeItem_exists (s : IDownloadsState) (x : IDownloadItem) :
  paused s = false → x ∈ Underscore.values (items s) → finished x = false →
  ∃ a, activeItem s = Some a ∧ minimal_pending s a.
Proof.
  intros Hp Hx Hfin. unfold activeItem. rewrite Hp.
  destruct (getActiveDownload_is_Some s x Hx Hfin) as [a Ha].
  exists a. split; [done|]. by apply getActiveDownload_minimal.
Qed.

Lemma cancelCurrent_Some (w : World) (h : IDownloadHandle) :
  current (watcher w) = Some h →
  cancel_requested (cancelCurrent w) = {[ h_ctx h ]} ∪ cancel_requested w
  ∧ effects (cancelCurrent w) = effects w ++ [GracefulCancel (h_ctx h)].
Proof. intros H. unfold cancelCurrent. by rewrite H. Qed.

Lemma start_spec (w : World) (item : IDownloadItem) :
  current (watcher (start w item)) = Some {| h_item := item; h_ctx := next_ctx w |}
  ∧ downloads (start w item) = downloads w
  ∧ (∀ h, current (watcher w) = Some h →
       h_ctx h ∈ cancel_requested (start w item)
       ∧ effects (start w item)
         = effects w ++ [GracefulCancel (h_ctx h); PerformDownload (next_ctx w) item])
  ∧ (current (watcher w) = None →
       effects (start w item) = effects w ++ [PerformDownload (next_ctx w) item]).
Proof.
  unfold start. destruct (cancelCurrent_frame w) as (_ & Hn & Hd).
  simpl. rewrite Hn, Hd. split_and!; [done..| |].
  - intros h Hh. destruct (cancelCurrent_Some w h Hh) as [-> ->].
    split; [set_solver|]. by rewrite <- app_assoc.
  - intros Hnone. unfold cancelCurrent. by rewrite Hnone.
Qed.

(** What a tick does: the store is left as it is; afterwards the current
    handle is for the item the queue has active (there is none when
    nothing is active) and its context was not cancelled; a handle that
    stops being the current one was sent [graceful-cancel], and when a
    download is started in its place, the cancel comes first. *)
Lemma updateDownloadState_spec (w : World) :
  inv w →
  let w' := updateDownloadState w in
  downloads w' = downloads w
  ∧ match activeItem (downloads w) with
    | Some a => ∃ h, current (watcher w') = Some h ∧ id (h_item h) = id a
                     ∧ h_ctx h ∉ cancel_requested w'
    | None => current (watcher w') = None
    end
  ∧ (∀ h, current (watcher w) = Some h → current (watcher w') ≠ Some h →
       h_ctx h ∈ cancel_requested w')
  ∧ (∀ h a, current (watcher w) = Some h → activeItem (downloads w) = Some a →
       id (h_item h) ≠ id a →
       effects w' = effects w ++ [SetProgress (default 0 (progress a));
                                  GracefulCancel (h_ctx h);
                                  PerformDownload (next_ctx w) a]).
Proof.
  intros Hw w'. pose proof (inv_updateDownloadState w Hw) as Hw'.
  subst w'. revert Hw'. unfold updateDownloadState, activeItem.
  destruct (paused (downloads w)) eqn:Hp.
  - intros _. destruct (current (watcher w)) as [cur|] eqn:Hcur; simpl.
    + destruct (cancelCurrent_frame w) as (_ & _ & Hd).
      destruct (cancelCurrent_Some w cur Hcur) as [Hreq _].
      rewrite Hd, cancelCurrent_current, Hreq.
      split_and!; [done..| |done].
      intros h [= <-] _. apply elem_of_union. left. by apply elem_of_singleton.
    + by rewrite Hcur.
  - destruct (getActiveDownload (downloads w)) as [a|] eqn:Ha.
    + set (w1 := setProgress w _).
      assert (Hcur1 : current (watcher w1) = current (watcher w)) by done.
      rewrite Hcur1.
      destruct (current (watcher w)) as [cur|] eqn:Hcur; [case_bool_decide|].
      * intros Hw'.
        destruct (start_spec w1 a) as (Hc & Hd & Hcancel & _).
        destruct (Hcancel cur Hcur1) as [Hreq Heff].
        split_and!; [done| | |].
        -- eexists. split_and!; [exact Hc|done|].
           by apply (inv_current _ Hw' _ Hc).
        -- intros h [= <-] _. done.
        -- intros h a' [= <-] [= <-] _. rewrite Heff. subst w1. simpl.
           by rewrite <- app_assoc.
      * intros _. simpl. rewrite Hcur. split_and!; [done| | |].
        -- exists cur. split_and!; [done|tauto|].
           by apply (inv_current _ Hw _ Hcur).
        -- intros h [= <-] Hne. done.
        -- intros h a' [= <-] [= <-] Hne. tauto.
      * intros Hw'.
        destruct (start_spec w1 a) as (Hc & Hd & _ & _).
        split_and!; [done| |done..].
        eexists. split_and!; [exact Hc|done|].
        by apply (inv_current _ Hw' _ Hc).
    + intros _. set (w1 := setProgress w _).
      assert (Hcur1 : current (watcher w1) = current (watcher w)) by done.
      rewrite Hcur1.
      destruct (current (watcher w)) as [cur|] eqn:Hcur; simpl.
      * destruct (cancelCurrent_frame w1) as (_ & _ & Hd).
        destruct (cancelCurrent_Some w1 cur Hcur1) as [Hreq _].
        rewrite Hd, cancelCurrent_current, Hreq.
        split_and!; [done..| |done].
        intros h [= <-] _. apply elem_of_union. left. by apply elem_of_singleton.
      * by rewrite Hcur.
Qed.

(** C1. In every world the queue can reach, whatever the downloads state
    the application started with: two live downloads are the
    same one; the item the queue has active is a non-finished item of
    minimal rank, and there is one whenever the queue is not paused and
    has a non-finished item; and a tick leaves the watcher with a current
    handle for exactly that item, the handle it replaces having been sent
    [graceful-cancel] before the new download is started, again with at
    most one live download. *)
Theorem single_active_download (s : IDownloadsState) (es : list Event) (w : World) :
  run (boot s) es = Some w →
  (∀ h1 h2, live w h1 → live w h2 → h1 = h2)
  ∧ (∀ a, activeItem (downloads w) = Some a → minimal_pending (downloads w) a)
  ∧ (paused (downloads w) = false →
     ∀ x, x ∈ Underscore.values (items (downloads w)) → finished x = false →
     ∃ a, activeItem (downloads w) = Some a ∧ minimal_pending (downloads w) a)
  ∧ (let w' := updateDownloadState w in
     (∀ h1 h2, live w' h1 → live w' h2 → h1 = h2)
     ∧ downloads w' = downloads w
     ∧ match activeItem (downloads w) with
       | Some a => ∃ h, current (watcher w') = Some h ∧ id (h_item h) = id a
                        ∧ h_ctx h ∉ cancel_requested w'
       | None => current (watcher w') = None
       end
     ∧ (∀ h, current (watcher w) = Some h → current (watcher w') ≠ Some h →
          h_ctx h ∈ cancel_requested w')
     ∧ (∀ h a, current (watcher w) = Some h → activeItem (downloads w) = Some a →
          id (h_item h) ≠ id a →
          effects w' = effects w ++ [SetProgress (default 0 (progress a));
                                     GracefulCancel (h_ctx h);
                                     PerformDownload (next_ctx w) a])).
Proof.
  intros Hrun.
  assert (Hw : inv w) by (apply inv_reachable; by exists s, es).
  split_and!.
  - intros h1 h2. by apply live_unique.
  - intros a Ha. by apply activeItem_minimal in Ha as [_ Ha].
  - intros Hp x. by apply activeItem_exists.
  - intros w'. split.
    + intros h1 h2. apply live_unique. by apply inv_updateDownloadState.
    + by apply updateDownloadState_spec.
Qed.

Example first_going_current :
  (h_item <$> current (watcher (world_after first_going)),
   h_ctx <$> current (watcher (world_after first_going)),
   effects (world_after first_going))
  = (Some (zero_bps (fresh "x" 1)), Some 0%nat,
     [Dispatch (DownloadStarted (fresh "x" 1)); Dispatch ResumeDownloads;
      SetProgress 0; PerformDownload 0 (zero_bps (fresh "x" 1))]).
Proof. vm_compute. reflexivity. Qed.

(** Between the arrival of a download and the next tick the current handle
    is still the one of the download started before... *)
Example second_queued_current :
  (id <$> activeItem (downloads (world_after second_queued)),
   id <$> (h_item <$> current (watcher (world_after second_queued))))
  = (Some "y", Some "x").
Proof. vm_compute. reflexivity. Qed.

(** ... and the tick cancels it, then starts the download that is active. *)
Example second_going_current :
  (id <$> (h_item <$> current (watcher (world_after second_going))),
   cancel_requested (world_after second_going),
   drop 5 (effects (world_after second_going)))
  = (Some "y", {[ 0%nat ]},
     [SetProgress 0; GracefulCancel 0;
      PerformDownload 1 (with_rank (fresh "y" 2) (-1))]).
Proof. vm_compute. reflexivity. Qed.

(** Until the cancelled download has unwound, its handle stays in the
    table of handles, next to the one of the download just started; only
    the latter is live. *)
Example second_going_handles :
  (h_ctx <$> handles (watcher (world_after second_going)) !! "x",
   h_ctx <$> handles (watcher (world_after second_going)) !! "y",
   h_ctx <$> inflight (world_after second_going))
  = (Some 0%nat, Some 1%nat, [0%nat; 1%nat]).
Proof. vm_compute. reflexivity. Qed.

Lemma single_active_download_witness :
  run initialWorld second_going = Some (world_after second_going)
  ∧ (∀ h1 h2, live (world_after second_going) h1 →
              live (world_after second_going) h2 → h1 = h2).
Proof.
  assert (H : run initialWorld second_going = Some (world_after second_going))
    by (vm_compute; reflexivity).
  split; [exact H|].
  exact (proj1 (single_active_download initialState second_going
                  (world_after second_going) H)).
Defined.

Lemma start_finally_effects (w : World) (item : IDownloadItem) error :
  ∃ new, effects (start_finally w item error) = effects w ++ new
  ∧ ((∃ p, Dispatch (DownloadEnded p) ∈ new)
     ↔ isCancelled error || isAborted error = false).
Proof.
  unfold start_finally, cleanupDiscarded. simpl.
  destruct (isCancelled error), (isAborted error),
    (bool_decide (id item ∈ discarded (watcher w))),
    (bool_decide (reason item = install) && truthy (err item)); simpl.
  all: eexists; split;
    [first [ rewrite <- ?app_assoc; simpl; reflexivity
           | symmetry; apply app_nil_r ] |].
  all: split; [|first [done | intros _; eexists; apply list_elem_of_here]].
  all: first [done | intros [p Hp]; exfalso].
  all: repeat (apply elem_of_cons in Hp as [Hp|Hp]; [discriminate Hp|]).
  all: by apply elem_of_nil in Hp.
Qed.

Lemma downloadDiscarded_lookup (s : IDownloadsState) (i j : string) x :
  items (downloadDiscarded s i) !! j = Some x → items s !! j = Some x ∧ j ≠ i.
Proof.
  unfold downloadDiscarded. destruct (items s !! i) eqn:Hi; simpl.
  - intros [? ?]%lookup_delete_Some. done.
  - intros Hj. split; [done|]. intros ->. congruence.
Qed.

Lemma start_finally_interrupted (w : World) (item : IDownloadItem) error :
  isCancelled error || isAborted error = true →
  downloads (start_finally w item error)
  = if isAborted error then downloadDiscarded (downloads w) (id item)
    else downloads w.
Proof.
  intros Hc. unfold start_finally, cleanupDiscarded. simpl.
  destruct (isCancelled error), (isAborted error),
    (bool_decide (id item ∈ discarded (watcher w))),
    (bool_decide (reason item = install) && truthy (err item));
    simpl in *; done.
Qed.

(** C5. When the work of a download ends with a cancellation or an abort,
    the [finally] block of [start] dispatches no [downloadEnded] (it
    dispatches one exactly when the work returned or threw another error);
    the store then is the one before, or the one before without the item:
    every item it has is as it was, with the [err] and [finished] it had. *)
Theorem cancellation_not_reported (w : World) (item : IDownloadItem)
    (error : option JsError) :
  let w' := start_finally w item error in
  (∃ new, effects w' = effects w ++ new
          ∧ ((∃ p, Dispatch (DownloadEnded p) ∈ new)
             ↔ isCancelled error || isAborted error = false))
  ∧ (isCancelled error || isAborted error = true →
     (downloads w' = downloads w
      ∨ downloads w' = downloadDiscarded (downloads w) (id item)
        ∧ items (downloads w') !! id item = None)
     ∧ ∀ i x, items (downloads w') !! i = Some x →
              items (downloads w) !! i = Some x).
Proof.
  intros w'. split; [apply start_finally_effects|].
  intros Hc. subst w'. rewrite (start_finally_interrupted w item error Hc).
  destruct (isAborted error).
  - split.
    + right. split; [done|].
      destruct (items (downloadDiscarded (downloads w) (id item)) !! id item)
        eqn:E; [|done].
      by apply downloadDiscarded_lookup in E as [_ ?].
    + intros i x Hx. by apply downloadDiscarded_lookup in Hx as [? _].
  - split; [by left|done].
Qed.

(** A download that was discarded while it had a handle was already taken
    out of the store by the handler of [discardDownload]. *)
Lemma discardDownload_removes (w : World) (i : string) :
  items (downloads (discardDownload w i)) !! i = None.
Proof.
  unfold discardDownload. destruct (items (downloads w) !! i) as [item|] eqn:Hi.
  - simpl. unfold downloadDiscarded.
    assert (Hd : ∀ w1, downloads w1 = downloads w →
              items (match items (downloads w1) !! i with
                     | Some _ => with_items (downloads w1)
                                   (delete i (items (downloads w1)))
                     | None => downloads w1 end) !! i = None).
    { intros w1 ->. rewrite Hi. simpl. apply lookup_delete_eq. }
    apply Hd. destruct (handles (watcher w) !! i); [done|].
    by destruct (cleanupDiscarded_frame w item) as (_ & _ & _ & _ & ->).
  - done.
Qed.

Example settle_cancelled :
  (w ← step (world_after second_going) (Settle 0 (Some cancelled_error));
   Some (bool_decide (items (downloads w)
                      = items (downloads (world_after second_going))),
         drop 8 (effects w)))
  = Some (true, []).
Proof. vm_compute. reflexivity. Qed.

Example settle_failed :
  (w ← step (world_after second_going) (Settle 1 (Some plain_error));
   it ← items (downloads w) !! "y";
   Some (finished it, err it))
  = Some (true, Some "ENOSPC").
Proof. vm_compute. reflexivity. Qed.

End DownloadWatcherFacts.

(** ** util/deploy *)

Section DeployFacts.
Import Deploy Samples.

Lemma elem_of_dinosaurs (d : Disk) (x : string) :
  x ∈ dinosaurs d ↔ x ∈ destFiles d ∧ x ∉ stage d.
Proof. unfold dinosaurs, Underscore.difference. apply list_elem_of_difference. Qed.

Lemma wipeAll_true (o : Outcomes) (dinos gone : list string) :
  wipeAll o dinos = (gone, true) → gone = dinos.
Proof. unfold wipeAll. destruct (forallb _ _); [by intros [= <-]|done]. Qed.

Lemma wipeAll_all_ok (dinos : list string) : wipeAll all_ok dinos = (dinos, true).
Proof.
  unfold wipeAll.
  assert (H : forallb (wipe_ok all_ok) dinos = true)
    by (by apply forallb_forall).
  by rewrite H.
Qed.

Lemma wipeAll_false (o : Outcomes) (dinos gone : list string) :
  wipeAll o dinos = (gone, false) →
  (∀ x, x ∈ gone → x ∈ dinos ∧ wipe_ok o x = true)
  ∧ ∃ rel, rel ∈ dinos ∧ wipe_ok o rel = false.
Proof.
  unfold wipeAll. destruct (forallb _ _) eqn:E; [done|]. intros [= <-]. split.
  - intros x. rewrite !list_elem_of_In, filter_In, andb_true_iff. tauto.
  - induction dinos as [|x l IH]; [done|]. simpl in E.
    destruct (wipe_ok o x) eqn:Hx.
    + destruct (IH E) as (rel & ? & ?). exists rel.
      split; [by apply list_elem_of_further|done].
    + exists x. split; [apply list_elem_of_here|done].
Qed.

(** The disk after the generic path, by the way it ended. *)
Lemma deployGeneric_cases (opts : IDeployOpts) (o : Outcomes) (d : Disk) :
  let d' := (deployGeneric opts o d).1 in
  let cleaned := wiped d (dinosaurs d) in
  match (deployGeneric opts o d).2 with
  | Returned status =>
      status = "ok" ∧ ditto_ok o = true
      ∧ d' = written (merged cleaned (stage d)) (Receipt (cave opts) (Some (stage d)))
  | Thrown AtMkdir | Thrown AtLogger => d' = d
  | Thrown AtWipe =>
      ∃ gone, d' = wiped d gone
              ∧ (∀ x, x ∈ gone → x ∈ dinosaurs d ∧ wipe_ok o x = true)
              ∧ ∃ rel, rel ∈ dinosaurs d ∧ wipe_ok o rel = false
  | Thrown AtDitto => d' = merged cleaned (ditto_copied o)
  | Thrown AtWriteReceipt =>
      ditto_ok o = true ∧ write_ok o = false
      ∧ d' = torn o (merged cleaned (stage d))
  | Thrown AtGlobStage | Thrown AtSingle => False
  end.
Proof.
  unfold deployGeneric.
  destruct (mkdir_ok o); simpl; [|done].
  destruct (logger opts); simpl; [|done].
  destruct (wipeAll o (dinosaurs d)) as [gone [|]] eqn:Hw; simpl.
  - apply wipeAll_true in Hw as ->.
    destruct (ditto_ok o); simpl; [|done].
    destruct (write_ok o); simpl; done.
  - apply wipeAll_false in Hw as [H1 H2]. by exists gone.
Qed.

Lemma deploy_cases (opts : IDeployOpts) (o : Outcomes) (d : Disk) :
  (glob_stage_ok o = false ∧ deploy opts o d = (d, Thrown AtGlobStage))
  ∨ (short_circuits opts d = true ∧ deploy opts o d = (d, Returned "ok"))
  ∨ (short_circuits opts d = false
     ∧ (deploy opts o d = deployGeneric opts o d
        ∨ deploy opts o d = (d, Thrown AtSingle))).
Proof.
  unfold deploy, short_circuits.
  destruct (glob_stage_ok o); simpl; [right|by left].
  destruct (stage d) as [|f [|g l]]; [by right; split; [|left]| |by right; split; [|left]].
  destruct (default singlenoop (onSingle opts) (join (stagePath opts) f))
    as [|[]]; [right|left|right]; split; try done; first [by left|by right].
Qed.

(** C3 does not hold of a deploy that the single-file listener takes
    over: with one staged file and a listener that reports it deployed,
    [deploy] returns and the destination and its receipt stay as they
    were. *)
Lemma short_circuit_keeps_destination :
  receipt lone_staged = Receipt None (Some ["a"; "b"; "c"])
  ∧ dest lone_staged = list_to_set ["a"; "b"; "c"] ∪ {[ receiptRel ]}
  ∧ (deploy hooked_opts all_ok lone_staged).2 = Returned "ok"
  ∧ dest (deploy hooked_opts all_ok lone_staged).1 ≠ list_to_set (stage lone_staged)
  ∧ dest (deploy hooked_opts all_ok lone_staged).1
    ≠ list_to_set (stage lone_staged) ∪ {[ receiptRel ]}
  ∧ receipt (deploy hooked_opts all_ok lone_staged).1
    ≠ Receipt (cave hooked_opts) (Some (stage lone_staged)).
Proof.
  assert (Ha : "a" ∈ dest (deploy hooked_opts all_ok lone_staged).1)
    by (by vm_compute).
  split_and!; [reflexivity..| | |discriminate].
  - intros H. rewrite H in Ha. by vm_compute in Ha.
  - intros H. rewrite H in Ha. by vm_compute in Ha.
Qed.

(** C3, amended. After a deploy that returns and that the single-file
    listener did not take over, onto a destination that holds the files of
    its receipt (and the receipt file): the destination holds exactly the
    staged files and the receipt file, the receipt lists the staged files,
    and the files wiped on the way are those of the previous receipt that
    are not staged. *)
Theorem deploy_orphan_removal (opts : IDeployOpts) (o : Outcomes) (d d' : Disk)
    (c : option ICaveRecord) (previous : list string) (status : string) :
  receipt d = Receipt c (Some previous) →
  (dest d = list_to_set previous
   ∨ previous ≠ [] ∧ dest d = list_to_set previous ∪ {[ receiptRel ]}) →
  short_circuits opts d = false →
  deploy opts o d = (d', Returned status) →
  dest d' = list_to_set (stage d) ∪ {[ receiptRel ]}
  ∧ receipt d' = Receipt (cave opts) (Some (stage d))
  ∧ (∀ x, x ∈ dinosaurs d ↔ x ∈ previous ∧ x ∉ stage d).
Proof.
  intros Hr Hd Hs Hdep.
  assert (Hfiles : ∀ x, x ∈ destFiles d ↔ x ∈ previous).
  { intros x. unfold destFiles, globDest. rewrite Hr. simpl.
    case_bool_decide as Hlen; [|done].
    apply length_zero_iff_nil in Hlen. subst previous.
    destruct Hd as [Hd|[? _]]; [|done]. rewrite Hd. set_solver. }
  assert (Hdest : ∀ x, x ∈ dest d → x ∈ previous ∨ x = receiptRel).
  { intros x. destruct Hd as [->|[_ ->]]; set_solver. }
  assert (Hprev : ∀ x, x ∈ previous → x ∈ dest d).
  { intros x. destruct Hd as [->|[_ ->]]; set_solver. }
  destruct (deploy_cases opts o d) as [[_ Hg]|[[Hs' _]|[_ [Hg|Hg]]]];
    [congruence|congruence| |congruence].
  pose proof (deployGeneric_cases opts o d) as H.
  rewrite <- Hg, Hdep in H. simpl in H. destruct H as (_ & _ & ->).
  split_and!; [|done|].
  - simpl. apply set_eq. intros x.
    rewrite !elem_of_union, elem_of_difference, !elem_of_list_to_set,
      elem_of_dinosaurs, Hfiles, elem_of_singleton.
    destruct (decide (x ∈ stage d)); [tauto|].
    split; [|tauto]. intros [[[Hx Hn]|?]|?]; [|done|tauto].
    destruct (Hdest x Hx); tauto.
  - intros x. by rewrite elem_of_dinosaurs, Hfiles.
Qed.

Lemma deploy_orphan_removal_witness :
  dest (deploy plain_opts all_ok abc_then_bcd).1
  = list_to_set ["b"; "c"; "d"] ∪ {[ receiptRel ]}
  ∧ receipt (deploy plain_opts all_ok abc_then_bcd).1
    = Receipt (Some "cave-1") (Some ["b"; "c"; "d"])
  ∧ (∀ x, x ∈ dinosaurs abc_then_bcd ↔ x ∈ ["a"; "b"; "c"] ∧ x ∉ ["b"; "c"; "d"]).
Proof.
  apply (deploy_orphan_removal plain_opts all_ok abc_then_bcd
           (deploy plain_opts all_ok abc_then_bcd).1 None ["a"; "b"; "c"] "ok").
  - reflexivity.
  - right. split; [discriminate|reflexivity].
  - reflexivity.
  - vm_compute. reflexivity.
Defined.

Example deploy_abc_bcd :
  dinosaurs abc_then_bcd = ["a"]
  ∧ (deploy plain_opts all_ok abc_then_bcd).2 = Returned "ok"
  ∧ bool_decide ("a" ∈ dest (deploy plain_opts all_ok abc_then_bcd).1) = false
  ∧ bool_decide ("d" ∈ dest (deploy plain_opts all_ok abc_then_bcd).1) = true.
Proof. split_and!; vm_compute; reflexivity. Qed.

(** C4 does not hold as it is stated, on three counts. A deploy that the
    single-file listener takes over returns, and the receipt is the one
    of the earlier deploy. A deploy that fails in the merge has changed
    the receipt file when that file was among the dinosaurs: a receipt
    that cannot be parsed is found by the listing of the destination and
    wiped with the other files that are not staged. And the write of the
    receipt goes to the receipt file itself: when it fails after having
    begun, the deploy fails and the file holds what the write left. *)
Lemma receipt_kept_or_lost_against_the_claim :
  (deploy hooked_opts all_ok one_staged = (one_staged, Returned "ok")
   ∧ receiptFiles (receipt (deploy hooked_opts all_ok one_staged).1) = ["old.dat"]
   ∧ receiptFiles (receipt (deploy hooked_opts all_ok one_staged).1)
     ≠ stage one_staged)
  ∧ (receipt unparsable_receipt = Unparsable
     ∧ receiptRel ∈ dest unparsable_receipt
     ∧ (deploy plain_opts merge_fails unparsable_receipt).2 = Thrown AtDitto
     ∧ receipt (deploy plain_opts merge_fails unparsable_receipt).1 = NoReceipt
     ∧ receiptRel ∉ dest (deploy plain_opts merge_fails unparsable_receipt).1)
  ∧ (receipt abc_then_bcd = Receipt None (Some ["a"; "b"; "c"])
     ∧ (deploy plain_opts write_fails abc_then_bcd).2 = Thrown AtWriteReceipt
     ∧ receipt (deploy plain_opts write_fails abc_then_bcd).1 = Unparsable).
Proof.
  split_and!; try reflexivity.
  - simpl. discriminate.
  - intros H. by vm_compute in H.
Qed.

(** C4, amended. The receipt file by the way the deploy ends. A deploy
    that returns has written the receipt with the staged files, after the
    merge, whatever the destination and the receipt were, unless the
    single-file listener took the deploy over, in which case nothing on
    the disk has changed. A deploy that fails before the merge is over has
    not written the receipt: after a failure of the listing of the stage,
    of the listener, of [mkdir] or for want of a logger the disk is as it
    was; after a failure of a wipe or of the merge the receipt file is as
    it was, or it is gone, having been a dinosaur (it is not staged, and
    the receipt lists it, or lists no file while the file is in the
    destination), or the merge has copied a staged file over it. A deploy
    that fails in the write of the receipt, which comes after the merge,
    leaves what that write left, or, when the write did not touch the
    file, what the wipes and the merge left. *)
Theorem receipt_written_last (opts : IDeployOpts) (o : Outcomes) (d : Disk) :
  let d' := (deploy opts o d).1 in
  let orphaned :=
    (receiptRel ∉ stage d)
    ∧ (receiptRel ∈ receiptFiles (receipt d)
       ∨ receiptFiles (receipt d) = [] ∧ receiptRel ∈ dest d) in
  match (deploy opts o d).2 with
  | Returned status =>
      status = "ok"
      ∧ if short_circuits opts d then d' = d
        else ditto_ok o = true
             ∧ receipt d' = Receipt (cave opts) (Some (stage d))
  | Thrown AtGlobStage | Thrown AtSingle | Thrown AtMkdir | Thrown AtLogger =>
      d' = d
  | Thrown AtWipe =>
      receipt d' = receipt d ∨ (receipt d' = NoReceipt ∧ orphaned)
  | Thrown AtDitto =>
      receipt d' = receipt d
      ∨ (receipt d' = NoReceipt ∧ orphaned)
      ∨ (receipt d' = staged_receipt d ∧ receiptRel ∈ ditto_copied o)
  | Thrown AtWriteReceipt =>
      ditto_ok o = true ∧ write_ok o = false
      ∧ match torn_receipt o with
        | NoReceipt =>
            receipt d' = receipt d
            ∨ (receipt d' = NoReceipt ∧ orphaned)
            ∨ (receipt d' = staged_receipt d ∧ receiptRel ∈ stage d)
        | content => receipt d' = content
        end
  end.
Proof.
  intros d' orphaned. subst d'.
  assert (Horph : receiptRel ∈ dinosaurs d → orphaned).
  { rewrite elem_of_dinosaurs. unfold destFiles, globDest. intros [Hin Hn].
    split; [done|]. case_bool_decide as Hlen; [|by left].
    apply length_zero_iff_nil in Hlen. right. split; [done|].
    by apply elem_of_elements. }
  destruct (deploy_cases opts o d) as [[_ ->]|[[-> ->]|[-> [->| ->]]]];
    simpl; [done|done| |done].
  pose proof (deployGeneric_cases opts o d) as H. simpl in H.
  destruct (deployGeneric opts o d).2 as [status|[]]; try done.
  - destruct H as (? & ? & ->). done.
  - destruct H as (gone & -> & Hgone & _). simpl.
    case_bool_decide as Hr; [right|by left].
    split; [done|]. apply Horph. by apply Hgone.
  - rewrite H. simpl.
    case_bool_decide as Hc; [by right; right|].
    case_bool_decide as Hr; [right; left|by left].
    split; [done|]. by apply Horph.
  - destruct H as (? & ? & ->). split_and!; [done..|].
    unfold torn. destruct (torn_receipt o); try done. simpl.
    case_bool_decide as Hc; [by right; right|].
    case_bool_decide as Hr; [right; left|by left].
    split; [done|]. by apply Horph.
Qed.

Example failed_merge_keeps_receipt :
  (deploy plain_opts merge_fails abc_then_bcd).2 = Thrown AtDitto
  ∧ receipt (deploy plain_opts merge_fails abc_then_bcd).1 = receipt abc_then_bcd.
Proof. split; vm_compute; reflexivity. Qed.

Lemma lists_no_files_nil (r : ReceiptFile) :
  lists_no_files r ↔ receiptFiles r = [].
Proof.
  split.
  - intros [->| [->| [c [->| ->]]]]; done.
  - destruct r as [| |c [[|f l]|]]; simpl; intros H; try done.
    + by left.
    + right. by left.
    + right. right. exists c. by right.
    + right. right. exists c. by left.
Qed.

(** The generic path looks at the receipt through [dinosaurs] only, as
    far as the files of the destination and the way it ends go. *)
Lemma deployGeneric_same_dinosaurs (opts : IDeployOpts) (o : Outcomes) (d1 d2 : Disk) :
  stage d1 = stage d2 → dest d1 = dest d2 → dinosaurs d1 = dinosaurs d2 →
  dest (deployGeneric opts o d1).1 = dest (deployGeneric opts o d2).1
  ∧ (deployGeneric opts o d1).2 = (deployGeneric opts o d2).2.
Proof.
  intros Hs Hd Hdin. unfold deployGeneric. rewrite Hs, Hdin.
  destruct (mkdir_ok o); simpl; [|done].
  destruct (logger opts); simpl; [|done].
  destruct (wipeAll o (dinosaurs d2)) as [gone [|]]; simpl; [|by rewrite Hd].
  destruct (ditto_ok o); simpl; [|by rewrite Hd].
  destruct (write_ok o); simpl; [by rewrite Hd|].
  unfold torn. destruct (torn_receipt o); simpl; by rewrite Hd.
Qed.

(** With a logger, and with butler and the file system doing their part,
    the generic path returns, whatever the receipt file holds. *)
Lemma deployGeneric_all_ok (opts : IDeployOpts) (d : Disk) :
  logger opts = true → (deployGeneric opts all_ok d).2 = Returned "ok".
Proof.
  intros Hl. unfold deployGeneric. rewrite Hl. simpl.
  by rewrite wipeAll_all_ok.
Qed.

(** C7. When the receipt is missing, cannot be parsed or lists no files,
    the previous file set is the listing of the destination and the
    dinosaurs are the listed files that are not staged; the deploy ends
    as it does, and with the same destination, for a receipt that lists
    exactly the files of the destination, and its generic path returns
    when the calls to butler and the file system succeed. *)
Theorem receipt_fallback (opts : IDeployOpts) (o : Outcomes) (d : Disk) :
  lists_no_files (receipt d) →
  destFiles d = globDest d
  ∧ (∀ x, x ∈ dinosaurs d ↔ x ∈ dest d ∧ x ∉ stage d)
  ∧ (let listed := with_receipt d (Receipt None (Some (globDest d))) in
     (deploy opts o d).2 = (deploy opts o listed).2
     ∧ dest (deploy opts o d).1 = dest (deploy opts o listed).1)
  ∧ (logger opts = true → (deployGeneric opts all_ok d).2 = Returned "ok").
Proof.
  intros Hr%lists_no_files_nil.
  assert (Hfiles : destFiles d = globDest d).
  { unfold destFiles. rewrite Hr. done. }
  split_and!; [done| | |apply deployGeneric_all_ok].
  - intros x. rewrite elem_of_dinosaurs, Hfiles. unfold globDest.
    by rewrite elem_of_elements.
  - intros listed.
    assert (Hlisted : destFiles listed = globDest d).
    { unfold destFiles. simpl. by case_bool_decide. }
    assert (Hdin : dinosaurs d = dinosaurs listed).
    { unfold dinosaurs. by rewrite Hfiles, Hlisted. }
    destruct (deployGeneric_same_dinosaurs opts o d listed) as [Hd Hc]; [done..|].
    unfold deploy. change (stage listed) with (stage d).
    destruct (glob_stage_ok o); simpl; [|done].
    destruct (stage d) as [|f [|g l]]; [done| |done].
    destruct (default singlenoop (onSingle opts) (join (stagePath opts) f))
      as [|[]]; done.
Qed.

Lemma receipt_fallback_witness :
  destFiles no_receipt = globDest no_receipt
  ∧ (∀ x, x ∈ dinosaurs no_receipt ↔ x ∈ dest no_receipt ∧ x ∉ stage no_receipt)
  ∧ (let listed := with_receipt no_receipt
                     (Receipt None (Some (globDest no_receipt))) in
     (deploy plain_opts all_ok no_receipt).2 = (deploy plain_opts all_ok listed).2
     ∧ dest (deploy plain_opts all_ok no_receipt).1
       = dest (deploy plain_opts all_ok listed).1)
  ∧ (logger plain_opts = true
     → (deployGeneric plain_opts all_ok no_receipt).2 = Returned "ok").
Proof. apply (receipt_fallback plain_opts all_ok no_receipt). by left. Defined.

Example deploy_no_receipt :
  dinosaurs no_receipt = ["a"]
  ∧ (deploy plain_opts all_ok no_receipt).2 = Returned "ok"
  ∧ receipt (deploy plain_opts all_ok no_receipt).1
    = Receipt (Some "cave-1") (Some ["b"; "c"]).
Proof. split_and!; vm_compute; reflexivity. Qed.

(** A receipt that cannot be parsed is itself among the dinosaurs. *)
Example deploy_unparsable_receipt :
  bool_decide (receiptRel ∈ dinosaurs unparsable_receipt) = true
  ∧ bool_decide ("old.dat" ∈ dinosaurs unparsable_receipt) = true
  ∧ length (dinosaurs unparsable_receipt) = 2%nat
  ∧ (deploy plain_opts all_ok unparsable_receipt).2 = Returned "ok"
  ∧ receipt (deploy plain_opts all_ok unparsable_receipt).1
    = Receipt (Some "cave-1") (Some ["game.exe"; "data.bin"]).
Proof. split_and!; vm_compute; reflexivity. Qed.

End DeployFacts.

(** ** reactors/tasks/as-task *)

Section AsTaskFacts.
Import Types AsTask Samples.

(** When the callback resolves: the run resolves; its effects are the
    clean-up, then what the outcome of the work asks for, then the one
    [taskEnded] they have; and the callback is called, once, exactly when
    there is an error to report, with that error and the text of the log. *)
Lemma asTask_resolving (opts : IAsTaskOpts) (r : Run) :
  callback_resolves opts →
  (asTask opts r).2 = None
  ∧ ∃ mid, (asTask opts r).1
           = cleaned_up opts r ++ mid
             ++ [DispatchTaskEnded (id r) (to_string <$> work_error r)]
           ∧ List.filter is_ended (cleaned_up opts r ++ mid) = []
           ∧ List.filter is_onError ((asTask opts r).1)
             = match to_report opts r with
               | Some e => [CallOnError e (memlog r)]
               | None => []
               end.
Proof.
  intros Hcb. unfold asTask, to_report, cleaned_up.
  set (closing := if close_throws r then [Warn CouldNotCloseLogger] else []).
  assert (Hclosing : List.filter is_ended closing = []
                     ∧ List.filter is_onError closing = [])
    by (subst closing; by destruct (close_throws r)).
  destruct Hclosing as [Hc1 Hc2].
  destruct (work_error r) as [e|]; simpl.
  - destruct (cancelled_kind e); [|destruct (aborted_kind e)]; simpl.
    + split; [by destruct (onError opts)|].
      exists (closing ++ [Warn (TaskCancelled (name opts))]).
      rewrite <- !app_assoc, !List.filter_app, Hc1, Hc2. simpl.
      by destruct (onError opts).
    + split; [by destruct (onError opts)|].
      exists (closing ++ [Warn (TaskAborted (name opts))]).
      rewrite <- !app_assoc, !List.filter_app, Hc1, Hc2. simpl.
      by destruct (onError opts).
    + destruct (onError opts) as [cb|] eqn:Hon.
      * rewrite (Hcb cb e (memlog r) Hon). simpl. split; [done|].
        exists (closing ++ [Warn (TaskThrew (name opts) (stack e));
                            CallOnError e (memlog r)]).
        rewrite <- !app_assoc, !List.filter_app, Hc1, Hc2. done.
      * simpl. split; [done|].
        exists (closing ++ [Warn (TaskThrew (name opts) (stack e))]).
        rewrite <- !app_assoc, !List.filter_app, Hc1, Hc2. done.
  - split; [done|]. exists closing.
    rewrite !List.filter_app, Hc1, Hc2. done.
Qed.

(** X17. In any run the callback is called, once, exactly when there is an
    error to report; and [taskEnded] is dispatched, once and last, unless
    the callback was called and rejected, in which case [asTask] rejects
    with the callback's error and dispatches none. *)
Lemma asTask_ended_or_rejected (opts : IAsTaskOpts) (r : Run) :
  List.filter is_onError (asTask opts r).1
  = match to_report opts r with
    | Some e => [CallOnError e (memlog r)]
    | None => []
    end
  ∧ (((asTask opts r).2 = None
      ∧ List.filter is_ended (asTask opts r).1
        = [DispatchTaskEnded (id r) (to_string <$> work_error r)]
      ∧ last (asTask opts r).1
        = Some (DispatchTaskEnded (id r) (to_string <$> work_error r)))
     ∨ (∃ cb e thrown,
          onError opts = Some cb ∧ to_report opts r = Some e
          ∧ cb e (memlog r) = Some thrown
          ∧ (asTask opts r).2 = Some thrown
          ∧ List.filter is_ended (asTask opts r).1 = [])).
Proof.
  unfold asTask, to_report, cleaned_up.
  destruct (work_error r) as [e|]; simpl.
  - destruct (cancelled_kind e); [|destruct (aborted_kind e)]; simpl.
    + split; [by destruct (close_throws r), (onError opts)|].
      left. by destruct (close_throws r).
    + split; [by destruct (close_throws r), (onError opts)|].
      left. by destruct (close_throws r).
    + destruct (onError opts) as [cb|] eqn:Hon.
      * destruct (cb e (memlog r)) as [thrown|] eqn:Hcb; simpl.
        -- split; [by destruct (close_throws r)|].
           right. exists cb, e, thrown. by destruct (close_throws r).
        -- split; [by destruct (close_throws r)|].
           left. by destruct (close_throws r).
      * split; [by destruct (close_throws r)|].
        left. by destruct (close_throws r).
  - split; [by destruct (close_throws r)|].
    left. by destruct (close_throws r).
Qed.

(** C8. A run in which the work throws an error and the [onError] callback
    rejects: the callback is called after the clean-up, [asTask] rejects
    with the error of the callback, and no [taskEnded] is dispatched; with
    a callback that resolves, the same run dispatches one. *)
Theorem task_ended_missed_when_callback_rejects :
  asTask rejecting_opts failing_run
  = ([ DispatchTaskStarted "t1" install 7; RegisterTask "t1"; RunWork;
       UnregisterTask "t1"; CloseLogger;
       Warn (TaskThrew install (Some "at write"));
       CallOnError plain_error "unpacking" ],
     Some callback_error)
  ∧ List.filter is_ended (asTask rejecting_opts failing_run).1 = []
  ∧ List.filter is_ended (asTask reporting_opts failing_run).1
    = [DispatchTaskEnded "t1" (Some "Error: ENOSPC")].
Proof. split_and!; reflexivity. Qed.

End AsTaskFacts.

(** ** reactors/game-updates *)

Section UpdateCheckFacts.
Import UpdateCheck Samples.



End UpdateCheckFacts.

(** ** reactors/launch *)

Section LaunchFacts.
Import Launch Samples.

(** C9. For a cave that is morphing, [performLaunch] returns after two
    dispatches, the status message and a [queueDownload] for the cave with
    reason [heal] and the upload and build of the cave; nothing of the
    launch path happens. *)
Theorem morphing_cave_is_healed (w : World) (cave : ICave) (game : Game) :
  morphing cave = true →
  performLaunch w cave game
  = ([StatusRepairing (title game);
      QueueDownload {| q_caveId := cave_id cave; q_game := game;
                       q_reason := Downloads.heal;
                       q_upload := upload cave; q_build := build cave |}],
     Returns)
  ∧ List.filter is_launch_effect (performLaunch w cave game).1 = [].
Proof. intros H. unfold performLaunch. rewrite H. done. Qed.

Lemma morphing_cave_is_healed_witness :
  performLaunch launch_world morphing_cave the_launch_game
  = ([StatusRepairing "Overland";
      QueueDownload {| q_caveId := "cave-1"; q_game := the_launch_game;
                       q_reason := Downloads.heal;
                       q_upload := Some 3; q_build := Some 5 |}],
     Returns)
  ∧ List.filter is_launch_effect
      (performLaunch launch_world morphing_cave the_launch_game).1 = [].
Proof.
  apply (morphing_cave_is_healed launch_world morphing_cave the_launch_game).
  reflexivity.
Defined.

(** A cave that is not morphing takes the launch path. *)
Lemma sound_cave_is_launched (w : World) (cave : ICave) (game : Game) :
  morphing cave = false →
  performLaunch w cave game = launchPath w cave game
  ∧ LogLaunching (title game) ∈ (performLaunch w cave game).1.
Proof.
  intros H. unfold performLaunch. rewrite H. split; [done|].
  unfold launchPath. destruct (has_credentials w); simpl;
    [destruct (butler_fails w), (stop_requested w)|]; apply list_elem_of_here.
Qed.

End LaunchFacts.

(** * Further properties of the embedded code *)

(** ** reducers/downloads: what the store keeps *)

Section DownloadsStore.
Import Downloads Samples.

Lemma foldl_index_lookup (l : list IDownloadItem) (m : gmap string IDownloadItem)
    (k : string) (x : IDownloadItem) :
  NoDup (id <$> l) →
  foldl (fun m i => <[id i := i]> m) m l !! k = Some x
  ↔ (x ∈ l ∧ id x = k) ∨ (m !! k = Some x ∧ k ∉ id <$> l).
Proof.
  revert m. induction l as [|y l IH]; intros m Hnd; simpl.
  - split; [intros H; right; split; [done|apply not_elem_of_nil]|].
    intros [[H _]|[H _]]; [by apply elem_of_nil in H|done].
  - apply NoDup_cons in Hnd as [Hy Hnd]. rewrite IH by done.
    rewrite lookup_insert. split.
    + intros [[Hx Hk]|[Hm Hk]].
      * left. split; [by apply list_elem_of_further|done].
      * case_decide as Hyk.
        -- injection Hm as ->. left. split; [apply list_elem_of_here|done].
        -- right. split; [done|]. intros [E|E]%elem_of_cons; [congruence|done].
    + intros [[[->|Hx]%elem_of_cons Hk]|[Hm Hk]].
      * right. rewrite decide_True by done. split; [done|]. by rewrite <- Hk.
      * by left.
      * right. apply not_elem_of_cons in Hk as [Hk1 Hk2].
        rewrite decide_False by congruence. done.
Qed.

Lemma index_lookup (l : list IDownloadItem) (k : string) (x : IDownloadItem) :
  NoDup (id <$> l) → index l !! k = Some x ↔ x ∈ l ∧ id x = k.
Proof.
  intros Hnd. unfold index. rewrite foldl_index_lookup by done.
  rewrite lookup_empty. naive_solver.
Qed.

Lemma foldl_index_indexed (l : list IDownloadItem) (m : gmap string IDownloadItem) :
  indexed_by_own_id m → indexed_by_own_id (foldl (fun m i => <[id i := i]> m) m l).
Proof.
  revert m. induction l as [|y l IH]; intros m Hm; simpl; [done|].
  apply IH. intros k x. rewrite lookup_insert. case_decide; [|by apply Hm].
  by intros [= <-].
Qed.

Lemma index_indexed (l : list IDownloadItem) : indexed_by_own_id (index l).
Proof. apply foldl_index_indexed. intros k x. by rewrite lookup_empty. Qed.

Lemma updateSingle_indexed (s : IDownloadsState) (r : PartialItem) :
  indexed_by_own_id (items s) → indexed_by_own_id (items (updateSingle s r)).
Proof.
  intros Hs. unfold updateSingle. destruct (items s !! p_id r); [|done].
  simpl. intros k x. rewrite lookup_insert. case_decide; [|by apply Hs].
  by intros [= <-].
Qed.

Lemma baseReducer_indexed (s s' : IDownloadsState) (a : Action) :
  indexed_by_own_id (items s) → baseReducer s a = Some s' →
  indexed_by_own_id (items s').
Proof.
  intros Hs. destruct a; simpl; try (intros [= <-]); simpl;
    try apply index_indexed; try (by apply updateSingle_indexed); try done.
  - intros k x. rewrite lookup_insert. case_decide; [|by apply index_indexed].
    by intros [= <-].
  - unfold retryDownload. destruct (items s !! i); intros [= <-].
    by apply updateSingle_indexed.
  - unfold downloadDiscarded. destruct (items s !! i); [|done]. simpl.
    intros k x [_ Hk]%lookup_delete_Some. by apply Hs.
Qed.

(** The values of a store that is indexed by the items' ids have distinct
    ids: they are the keys. *)
Lemma values_ids (m : gmap string IDownloadItem) :
  indexed_by_own_id m → id <$> Underscore.values m = (map_to_list m).*1.
Proof.
  intros Hm. unfold Underscore.values. rewrite <- list_fmap_compose.
  apply list_fmap_ext. intros _ [k x] Hkx%list_elem_of_lookup_2.
  apply elem_of_map_to_list in Hkx. simpl. by apply Hm.
Qed.

Lemma index_fmap_values (f : IDownloadItem → IDownloadItem)
    (m : gmap string IDownloadItem) :
  (∀ x, id (f x) = id x) → indexed_by_own_id m →
  index (f <$> Underscore.values m) = f <$> m.
Proof.
  intros Hf Hm. apply map_eq. intros k. apply option_eq. intros y.
  rewrite index_lookup.
  - rewrite lookup_fmap, fmap_Some, list_elem_of_fmap. split.
    + intros [(x & -> & Hx) Hk]. apply elem_of_values in Hx as [k' Hk'].
      exists x. split; [|done]. rewrite Hf in Hk.
      by rewrite <- Hk, (Hm _ _ Hk').
    + intros (x & Hx & ->). split.
      * exists x. split; [done|]. apply elem_of_values. eauto.
      * rewrite Hf. by apply Hm.
  - rewrite <- list_fmap_compose.
    rewrite (list_fmap_ext (id ∘ f) id (Underscore.values m)) by (intros; apply Hf).
    rewrite values_ids by done. apply NoDup_fst_map_to_list.
Qed.

(** X1. Any sequence of actions the reducer accepts, from a store whose
    items are indexed by their own id, the initial one for example, ends in
    such a store. *)
Theorem items_stay_indexed_by_own_id (s s' : IDownloadsState) (actions : list Action) :
  indexed_by_own_id (items s) → reduceAll s actions = Some s' →
  indexed_by_own_id (items s').
Proof.
  revert s. induction actions as [|a rest IH]; intros s Hs; simpl.
  - by intros [= <-].
  - destruct (baseReducer s a) as [s1|] eqn:Ha; [|done]. simpl.
    apply IH. by eapply baseReducer_indexed.
Qed.

Lemma items_stay_indexed_by_own_id_witness :
  reduceAll initialState some_actions = Some (state_after some_actions)
  ∧ indexed_by_own_id (items (state_after some_actions)).
Proof.
  assert (H : reduceAll initialState some_actions = Some (state_after some_actions))
    by (vm_compute; reflexivity).
  split; [exact H|].
  apply (items_stay_indexed_by_own_id initialState _ some_actions); [|exact H].
  intros k x. unfold initialState. simpl. by rewrite lookup_empty.
Defined.

Lemma speeds_after_datapoint (l : list Z) (b : Z) (n : nat) :
  length (drop (length (l ++ [b]) - n) (l ++ [b])) = Nat.min n (S (length l))
  ∧ (n ≠ 0%nat → last (drop (length (l ++ [b]) - n) (l ++ [b])) = Some b)
  ∧ (length l = n → n ≠ 0%nat →
     drop (length (l ++ [b]) - n) (l ++ [b]) = drop 1 l ++ [b]).
Proof.
  rewrite length_drop, length_app. simpl. split_and!.
  - lia.
  - intros Hn. rewrite drop_app_le by lia. apply last_snoc.
  - intros Hl Hn. replace (length l + 1 - n)%nat with 1%nat by lia.
    rewrite drop_app_le by lia. done.
Qed.

Lemma baseReducer_speeds (s s' : IDownloadsState) (a : Action) :
  baseReducer s a = Some s' →
  speeds s' = speeds s
  ∨ ∃ b, a = DownloadSpeedDatapoint b ∧ s' = downloadSpeedDatapoint s b.
Proof.
  destruct a; simpl; try (intros [= <-]; by left).
  - unfold retryDownload, updateSingle. destruct (items s !! i) eqn:Hi;
      intros [= <-]; left; simpl. by rewrite Hi.
  - intros [= <-]. left. unfold downloadProgress, updateSingle.
    by destruct (items s !! p_id record).
  - intros [= <-]. left. unfold downloadEnded, updateSingle. simpl.
    by destruct (items s !! e_id p).
  - intros [= <-]. right. by exists b.
  - intros [= <-]. left. unfold prioritizeDownload, updateSingle. simpl.
    by destruct (items s !! i).
  - intros [= <-]. left. unfold downloadDiscarded. by destruct (items s !! i).
Qed.

(** X2. The speed history is a window of [SPEED_DATA_POINT_COUNT] points:
    from the initial state, whatever the actions, it has exactly that many
    points; and a data point arriving at a full window goes to its end
    while the oldest point leaves. *)
Theorem speeds_is_a_sliding_window (actions : list Action) (s' : IDownloadsState)
    (b : Z) :
  reduceAll initialState actions = Some s' →
  length (speeds s') = SPEED_DATA_POINT_COUNT
  ∧ speeds (downloadSpeedDatapoint s' b) = drop 1 (speeds s') ++ [b]
  ∧ last (speeds (downloadSpeedDatapoint s' b)) = Some b.
Proof.
  assert (Hgen : ∀ acts s, length (speeds s) = SPEED_DATA_POINT_COUNT →
            reduceAll s acts = Some s' →
            length (speeds s') = SPEED_DATA_POINT_COUNT).
  { induction acts as [|a rest IH]; intros s Hs; simpl; [by intros [= <-]|].
    destruct (baseReducer s a) as [s1|] eqn:Ha; [|done]. simpl.
    apply IH. destruct (baseReducer_speeds s s1 a Ha) as [->|(b' & _ & ->)];
      [done|].
    simpl. destruct (speeds_after_datapoint (speeds s) b' SPEED_DATA_POINT_COUNT)
      as (-> & _). rewrite Hs. done. }
  intros Hrun.
  assert (Hlen : length (speeds s') = SPEED_DATA_POINT_COUNT).
  { apply (Hgen actions initialState); [|done]. apply length_replicate. }
  destruct (speeds_after_datapoint (speeds s') b SPEED_DATA_POINT_COUNT)
    as (_ & Hlast & Hshift).
  split_and!; [done|by apply Hshift|by apply Hlast].
Qed.

Lemma speeds_is_a_sliding_window_witness :
  length (speeds (downloadSpeedDatapoint initialState 512)) = SPEED_DATA_POINT_COUNT
  ∧ last (speeds (downloadSpeedDatapoint
                    (downloadSpeedDatapoint initialState 512) 1024)) = Some 1024.
Proof.
  destruct (speeds_is_a_sliding_window [DownloadSpeedDatapoint 512]
              (downloadSpeedDatapoint initialState 512) 1024 eq_refl)
    as (H1 & _ & H3).
  split; [exact H1|exact H3].
Defined.

(** X3. Resuming, on a store indexed by the items' ids: the queue is no
    longer paused and every item is where it was, with [bps] reset to 0
    and nothing else changed. *)
Theorem resume_resets_bps_only (s : IDownloadsState) :
  indexed_by_own_id (items s) →
  paused (resumeDownloads s) = false
  ∧ items (resumeDownloads s) = zero_bps <$> items s
  ∧ (∀ k x, items s !! k = Some x →
       ∃ y, items (resumeDownloads s) !! k = Some y
            ∧ bps y = Some 0 ∧ rank y = rank x ∧ finished y = finished x
            ∧ progress y = progress x ∧ err y = err x ∧ id y = id x)
  ∧ (∀ k, items s !! k = None → items (resumeDownloads s) !! k = None)
  ∧ speeds (resumeDownloads s) = speeds s.
Proof.
  intros Hs.
  assert (Hitems : items (resumeDownloads s) = zero_bps <$> items s).
  { unfold resumeDownloads. simpl.
    rewrite <- (index_fmap_values zero_bps (items s)); done. }
  split_and!; [done|done| | |done].
  - intros k x Hk. exists (zero_bps x).
    rewrite Hitems, lookup_fmap, Hk. done.
  - intros k Hk. by rewrite Hitems, lookup_fmap, Hk.
Qed.

Lemma resume_resets_bps_only_witness :
  paused (resumeDownloads two_items) = false
  ∧ items (resumeDownloads two_items) = zero_bps <$> items two_items.
Proof.
  assert (H : indexed_by_own_id (items two_items)).
  { intros k x. unfold two_items. simpl.
    rewrite !lookup_insert. repeat case_decide; subst;
      rewrite ?lookup_empty; by intros [= <-]. }
  destruct (resume_resets_bps_only two_items H) as (H1 & H2 & _).
  split; [exact H1|exact H2].
Defined.

(** X4. A download that starts is put in the store under its id, as it
    was handed over but with a rank strictly below the rank of every item
    the store had: it goes to the front. The pause flag and the speed
    history stay. *)
Theorem started_download_goes_first (s : IDownloadsState) (item : IDownloadItem) :
  items (downloadStarted s item) !! id item
  = Some (with_rank item (higherPriorityRank s))
  ∧ rank (with_rank item (higherPriorityRank s)) = higherPriorityRank s
  ∧ (∀ j x, items s !! j = Some x → higherPriorityRank s < rank x)
  ∧ (items s = ∅ → higherPriorityRank s = 0)
  ∧ paused (downloadStarted s item) = paused s
  ∧ speeds (downloadStarted s item) = speeds s.
Proof.
  split_and!; try done.
  - unfold downloadStarted. simpl. apply lookup_insert_eq.
  - intros j x. apply higherPriorityRank_lt.
  - intros He. unfold higherPriorityRank, Underscore.values.
    by rewrite He, map_to_list_empty.
Qed.

(** X5. Once [downloadDiscarded] has been reduced for an id, the store has
    no item for it, the other items are as they were, and whatever arrives
    for that id afterwards (progress, the end of the download, a
    prioritize, a second discard) leaves the store as it is. *)
Theorem discarded_download_is_forgotten (s : IDownloadsState) (i : string) :
  let s' := downloadDiscarded s i in
  items s' !! i = None
  ∧ (∀ j, j ≠ i → items s' !! j = items s !! j)
  ∧ downloadDiscarded s' i = s'
  ∧ (∀ r, p_id r = i → downloadProgress s' r = s')
  ∧ (∀ p, e_id p = i → downloadEnded s' p = s')
  ∧ prioritizeDownload s' i = s'.
Proof.
  intros s'.
  assert (Hi : items s' !! i = None).
  { subst s'. unfold downloadDiscarded. destruct (items s !! i) eqn:E; [|done].
    simpl. apply lookup_delete_eq. }
  split_and!; [done| | | | |].
  - intros j Hj. subst s'. unfold downloadDiscarded.
    destruct (items s !! i); [|done]. simpl. by apply lookup_delete_ne.
  - unfold downloadDiscarded. by rewrite Hi.
  - intros r <-. unfold downloadProgress. by apply updateSingle_unknown.
  - intros p <-. unfold downloadEnded. by apply updateSingle_unknown.
  - unfold prioritizeDownload. by apply updateSingle_unknown.
Qed.

(** X6. A download that ended with an error and is retried is no longer
    finished and has a rank above the rank of every item of the store,
    but it keeps the error and the stack that were recorded when it
    ended. *)
Theorem retried_download_keeps_its_error (s : IDownloadsState) (p : EndedPayload)
    (it : IDownloadItem) :
  items s !! e_id p = Some it →
  ∃ s1 it1, retryDownload (downloadEnded s p) (e_id p) = Some s1
    ∧ items s1 !! e_id p = Some it1
    ∧ finished it1 = false
    ∧ err it1 = e_err p ∧ errStack it1 = e_errStack p
    ∧ progress it1 = Some 0
    ∧ (∀ j x, items (downloadEnded s p) !! j = Some x → rank x < rank it1)
    ∧ (∀ j, j ≠ e_id p → items s1 !! j = items s !! j).
Proof.
  intros Hi.
  set (r1 := {| p_id := e_id p; p_rank := None; p_finished := Some true;
                p_finishedAt := Some (e_finishedAt p);
                p_progress := Some (Some 0); p_eta := Some (Some 0);
                p_bps := Some (Some 0);
                p_err := Some (e_err p); p_errStack := Some (e_errStack p) |}).
  assert (He : items (downloadEnded s p) = <[e_id p := spread it r1]> (items s)).
  { unfold downloadEnded, updateSingle. simpl. rewrite Hi. done. }
  assert (Hi1 : items (downloadEnded s p) !! e_id p = Some (spread it r1)).
  { rewrite He. apply lookup_insert_eq. }
  unfold retryDownload. rewrite Hi1.
  set (r2 := {| p_id := e_id p;
                p_rank := Some (lowerPriorityRank (downloadEnded s p));
                p_finished := Some false; p_progress := None; p_bps := None;
                p_eta := None; p_finishedAt := None; p_err := None;
                p_errStack := None |}).
  destruct (updateSingle_known (downloadEnded s p) r2 _ Hi1) as [Hitems _].
  eexists _, (spread (spread it r1) r2). rewrite Hitems.
  split_and!; [done|apply lookup_insert_eq|done..| |].
  - intros j x Hj. simpl. by eapply lowerPriorityRank_gt.
  - intros j Hj. simpl. rewrite lookup_insert_ne by done.
    rewrite He. by rewrite lookup_insert_ne.
Qed.

Lemma retried_download_keeps_its_error_witness :
  ∃ s1 it1,
    retryDownload
      (downloadEnded two_items
         {| e_id := "b"; e_item := None; e_finishedAt := None;
            e_err := Some "ENOSPC"; e_errStack := Some "at write" |}) "b"
    = Some s1
    ∧ items s1 !! "b" = Some it1
    ∧ finished it1 = false
    ∧ err it1 = Some "ENOSPC".
Proof.
  destruct (retried_download_keeps_its_error two_items
              {| e_id := "b"; e_item := None; e_finishedAt := None;
                 e_err := Some "ENOSPC"; e_errStack := Some "at write" |}
              item_b eq_refl)
    as (s1 & it1 & H1 & H2 & H3 & H4 & _).
  exists s1, it1. split_and!; [exact H1|exact H2|exact H3|exact H4].
Defined.

End DownloadsStore.

(** ** reactors/downloads/download-watcher: handles, ticks, discards *)

Section WatcherLifecycle.
Import Downloads Types DownloadWatcher Samples.

Lemma cancelCurrent_tables (w : World) :
  handles (watcher (cancelCurrent w)) = handles (watcher w)
  ∧ discarded (watcher (cancelCurrent w)) = discarded (watcher w).
Proof. unfold cancelCurrent. by destruct (current (watcher w)). Qed.

Lemma start_tables (w : World) (item : IDownloadItem) :
  handles (watcher (start w item))
  = <[id item := {| h_item := item; h_ctx := next_ctx w |}]> (handles (watcher w))
  ∧ discarded (watcher (start w item)) = discarded (watcher w)
  ∧ inflight (start w item)
    = inflight w ++ [{| h_item := item; h_ctx := next_ctx w |}].
Proof.
  unfold start. destruct (cancelCurrent_tables w) as [Hh Hd].
  destruct (cancelCurrent_frame w) as (Hi & Hn & _).
  simpl. by rewrite Hh, Hd, Hi, Hn.
Qed.

(** What a tick does to the watcher, by the three cases of its body. *)
Lemma updateDownloadState_cases (w : World) :
  let w' := updateDownloadState w in
  downloads w' = downloads w
  ∧ discarded (watcher w') = discarded (watcher w)
  ∧ ((activeItem (downloads w) = None
      ∧ current (watcher w') = None
      ∧ handles (watcher w') = handles (watcher w)
      ∧ inflight w' = inflight w
      ∧ List.filter is_start (effects w') = List.filter is_start (effects w)
      ∧ (∀ h, current (watcher w) = Some h →
           h_ctx h ∈ cancel_requested w' ∧ GracefulCancel (h_ctx h) ∈ effects w'))
     ∨ (∃ a cur, activeItem (downloads w) = Some a
          ∧ current (watcher w) = Some cur ∧ id (h_item cur) = id a
          ∧ watcher w' = watcher w ∧ inflight w' = inflight w
          ∧ cancel_requested w' = cancel_requested w
          ∧ next_ctx w' = next_ctx w
          ∧ effects w' = effects w ++ [SetProgress (default 0 (progress a))])
     ∨ (∃ a, activeItem (downloads w) = Some a
          ∧ (∀ cur, current (watcher w) = Some cur → id (h_item cur) ≠ id a)
          ∧ current (watcher w') = Some {| h_item := a; h_ctx := next_ctx w |}
          ∧ handles (watcher w')
            = <[id a := {| h_item := a; h_ctx := next_ctx w |}]> (handles (watcher w))
          ∧ inflight w' = inflight w ++ [{| h_item := a; h_ctx := next_ctx w |}]
          ∧ (∀ h, current (watcher w) = Some h →
               h_ctx h ∈ cancel_requested w'
               ∧ GracefulCancel (h_ctx h) ∈ effects w'))).
Proof.
  intros w'. subst w'. unfold updateDownloadState, activeItem.
  destruct (paused (downloads w)) eqn:Hp.
  - destruct (current (watcher w)) as [cur|] eqn:Hcur; simpl.
    + destruct (cancelCurrent_frame w) as (Hi & _ & Hd).
      destruct (cancelCurrent_tables w) as [Hh Hdis].
      destruct (cancelCurrent_Some w cur Hcur) as [Hreq Heff].
      rewrite Hd, Hdis, Hh, Hi, cancelCurrent_current, Hreq, Heff.
      split_and!; [done..|]. left.
      split_and!; [done..| |].
      * by rewrite !List.filter_app, !app_nil_r.
      * intros h [= <-]. split; [set_solver|].
        apply elem_of_app. left. apply elem_of_app. right. apply list_elem_of_here.
    + rewrite Hcur. split_and!; [done..|]. left.
      split_and!; [done..| |done].
      by rewrite List.filter_app, app_nil_r.
  - destruct (getActiveDownload (downloads w)) as [a|] eqn:Ha.
    + set (w1 := setProgress w _).
      assert (Hcur1 : current (watcher w1) = current (watcher w)) by done.
      rewrite Hcur1.
      destruct (current (watcher w)) as [cur|] eqn:Hcur; [case_bool_decide as Hid|].
      * destruct (start_spec w1 a) as (Hc & Hd & Hcancel & _).
        destruct (start_tables w1 a) as (Hh & Hdis & Hin).
        destruct (Hcancel cur Hcur1) as [Hreq Heff].
        rewrite Hd, Hdis. split_and!; [done..|]. right. right.
        exists a. split_and!; [done| |done..|].
        -- by intros cur' [= <-].
        -- intros h [= <-]. split; [done|]. rewrite Heff.
           apply elem_of_app. right. apply list_elem_of_here.
      * split_and!; [done..|]. right. left. exists a, cur.
        split_and!; [done|done| |done..]. 
        destruct (decide (id (h_item cur) = id a)); [done|tauto].
      * destruct (start_spec w1 a) as (Hc & Hd & _ & _).
        destruct (start_tables w1 a) as (Hh & Hdis & Hin).
        rewrite Hd, Hdis. split_and!; [done..|]. right. right.
        exists a. split_and!; done.
    + set (w1 := setProgress w _).
      assert (Hcur1 : current (watcher w1) = current (watcher w)) by done.
      rewrite Hcur1.
      destruct (current (watcher w)) as [cur|] eqn:Hcur; simpl.
      * destruct (cancelCurrent_frame w1) as (Hi & _ & Hd).
        destruct (cancelCurrent_tables w1) as [Hh Hdis].
        destruct (cancelCurrent_Some w1 cur Hcur1) as [Hreq Heff].
        rewrite Hd, Hdis, Hh, Hi, cancelCurrent_current, Hreq, Heff.
        split_and!; [done..|]. left.
        split_and!; [done..| |].
        -- subst w1. simpl. by rewrite !List.filter_app, !app_nil_r.
        -- intros h [= <-]. split; [set_solver|].
           apply elem_of_app. right. apply list_elem_of_here.
      * rewrite Hcur. split_and!; [done..|]. left.
        split_and!; [done..| |done].
        by rewrite List.filter_app, app_nil_r.
Qed.

Lemma cleanupDiscarded_effects (w : World) (item : IDownloadItem) :
  effects (cleanupDiscarded w item) = effects w ++ cleanup_effects item.
Proof.
  unfold cleanupDiscarded, cleanup_effects.
  destruct (_ && _); simpl; by rewrite <- ?app_assoc.
Qed.

Lemma wipes_justified_app (l1 l2 : list Effect) :
  wipes_justified l1 → wipes_justified l2 → wipes_justified (l1 ++ l2).
Proof.
  intros [H1 C1] [H2 C2]. split.
  - intros item [Hin|Hin]%elem_of_app; [by apply H1|by apply H2].
  - intros item before after
      [(k & -> & ->)|(k & -> & ->)]%app_eq_inv.
    + by apply (C1 item before k).
    + rewrite !List.filter_app, !length_app.
      pose proof (C1 item l1 [] (eq_sym (app_nil_r l1))).
      pose proof (C2 item k after eq_refl). lia.
Qed.

Lemma wipes_justified_free (l : list Effect) :
  (∀ item, WipeInstallFolder item ∉ l) → wipes_justified l.
Proof.
  intros H. split; [intros item Hin; by apply H in Hin|].
  intros item before after ->.
  destruct (List.filter (is_install_wipe_of item) before) as [|e k] eqn:E;
    [simpl; lia|].
  assert (Hin : List.In e (List.filter (is_install_wipe_of item) before))
    by (rewrite E; by left).
  apply filter_In in Hin as [Hin He]. destruct e; try done.
  exfalso. apply (H item0). apply elem_of_app. left. by apply list_elem_of_In.
Qed.

Lemma wipes_justified_cleanup (item : IDownloadItem) :
  wipes_justified (cleanup_effects item).
Proof.
  unfold cleanup_effects.
  destruct (_ && _) eqn:Hc.
  - apply andb_true_iff in Hc as [Hr%bool_decide_eq_true He]. split.
    + intros it [Hin|Hin]%elem_of_cons; [done|].
      by apply list_elem_of_singleton in Hin as [= ->].
    + intros it before after Heq.
      destruct before as [|e1 [|e2 [|e3 before]]]; simpl in Heq.
      * simpl. lia.
      * injection Heq as <- _. simpl. lia.
      * injection Heq as <- <- _. simpl. by destruct (bool_decide (item = it)).
      * by destruct after.
  - apply wipes_justified_free. intros it [Hin|Hin]%elem_of_cons; [done|].
    by apply elem_of_nil in Hin.
Qed.

(** With the counts of [wipes_justified], a wipe of an install folder has
    a wipe of the download folder of the same item before it. *)
Lemma wipes_justified_before (l before after : list Effect)
    (item : IDownloadItem) :
  wipes_justified l → l = before ++ WipeInstallFolder item :: after →
  WipeDownloadFolder item ∈ before.
Proof.
  intros [_ C] Heq.
  pose proof (C item (before ++ [WipeInstallFolder item]) after) as Hc.
  rewrite <- app_assoc in Hc. specialize (Hc Heq).
  rewrite !List.filter_app, !length_app in Hc. simpl in Hc.
  rewrite bool_decide_eq_true_2 in Hc by done. simpl in Hc.
  destruct (List.filter (is_download_wipe_of item) before) as [|e k] eqn:E;
    [simpl in Hc; lia|].
  assert (Hin : List.In e (List.filter (is_download_wipe_of item) before))
    by (rewrite E; by left).
  apply filter_In in Hin as [Hin He]. destruct e; try done.
  simpl in He. apply bool_decide_eq_true in He as ->.
  by apply list_elem_of_In.
Qed.

Ltac no_install_wipe :=
  apply wipes_justified_free; intros ? Hin;
  repeat (apply elem_of_cons in Hin as [Hin|Hin]; [discriminate|]);
  by apply elem_of_nil in Hin.

Lemma updateDownloadState_new (w : World) :
  ∃ new, effects (updateDownloadState w) = effects w ++ new
         ∧ wipes_justified new.
Proof.
  unfold updateDownloadState, start, cancelCurrent, setProgress, emit.
  destruct (paused (downloads w)).
  - destruct (current (watcher w)) eqn:Hc; simpl; rewrite ?Hc; simpl.
    all: eexists; split; [rewrite <- ?app_assoc; reflexivity|no_install_wipe].
  - destruct (getActiveDownload (downloads w)); simpl.
    + destruct (current (watcher w)) eqn:Hc; simpl; [case_bool_decide|];
        simpl; rewrite ?Hc; simpl.
      all: eexists; split; [rewrite <- ?app_assoc; reflexivity|no_install_wipe].
    + destruct (current (watcher w)) eqn:Hc; simpl; rewrite ?Hc; simpl.
      all: eexists; split; [rewrite <- ?app_assoc; reflexivity|no_install_wipe].
Qed.

Lemma discardDownload_new (w : World) (i : string) :
  ∃ new, effects (discardDownload w i) = effects w ++ new
         ∧ wipes_justified new.
Proof.
  unfold discardDownload. destruct (items (downloads w) !! i) as [item|].
  - destruct (handles (watcher w) !! i); simpl.
    + eexists; split; [reflexivity|no_install_wipe].
    + rewrite cleanupDiscarded_effects.
      exists (cleanup_effects item ++ [Dispatch (DownloadDiscarded i)]).
      split; [by rewrite <- app_assoc|].
      apply wipes_justified_app; [apply wipes_justified_cleanup|no_install_wipe].
  - exists []. split; [by rewrite app_nil_r|no_install_wipe].
Qed.

Lemma start_finally_new (w : World) (item : IDownloadItem) error :
  ∃ new, effects (start_finally w item error) = effects w ++ new
         ∧ wipes_justified new.
Proof.
  unfold start_finally.
  destruct (isCancelled error || isAborted error).
  - destruct (_ || _).
    + rewrite cleanupDiscarded_effects. destruct (isAborted error); simpl.
      * exists ([Dispatch (DownloadDiscarded (id item))] ++ cleanup_effects item).
        split; [by rewrite <- app_assoc|].
        apply wipes_justified_app; [no_install_wipe|apply wipes_justified_cleanup].
      * eexists. split; [reflexivity|apply wipes_justified_cleanup].
    + exists []. split; [by rewrite app_nil_r|no_install_wipe].
  - simpl. eexists; split; [reflexivity|no_install_wipe].
Qed.

Lemma step_new (w w' : World) (e : Event) :
  step w e = Some w' →
  ∃ new, effects w' = effects w ++ new ∧ wipes_justified new.
Proof.
  destruct e as [a|i| |ctx pr bp et|ctx error]; simpl.
  - destruct (baseReducer _ _); intros [= <-]. simpl.
    eexists; split; [reflexivity|no_install_wipe].
  - intros [= <-]. apply discardDownload_new.
  - intros [= <-]. apply updateDownloadState_new.
  - destruct (find_inflight _ _); intros [= <-]. simpl.
    eexists; split; [reflexivity|no_install_wipe].
  - destruct (find_inflight _ _) as [h|]; intros [= <-].
    apply (start_finally_new (remove_inflight w ctx)).
Qed.

Lemma run_new (es : list Event) (w w' : World) :
  run w es = Some w' →
  ∃ new, effects w' = effects w ++ new ∧ wipes_justified new.
Proof.
  revert w. induction es as [|e es IH]; intros w; simpl.
  - intros [= <-]. exists []. split; [by rewrite app_nil_r|].
    apply wipes_justified_free. intros it Hin. by apply elem_of_nil in Hin.
  - destruct (step w e) as [w1|] eqn:Hs; [|done]. simpl. intros Hr.
    destruct (step_new _ _ _ Hs) as (n1 & E1 & H1).
    destruct (IH _ Hr) as (n2 & E2 & H2).
    exists (n1 ++ n2). split; [by rewrite E2, E1, <- app_assoc|].
    by apply wipes_justified_app.
Qed.

Lemma start_finally_tables (w : World) (item : IDownloadItem) error :
  handles (watcher (start_finally w item error))
  = delete (id item) (handles (watcher w)).
Proof.
  unfold start_finally.
  destruct (isCancelled error || isAborted error); [|done].
  destruct (_ || _); [|done].
  match goal with |- context [cleanupDiscarded ?w0 item] =>
    destruct (cleanupDiscarded_frame w0 item) as (-> & _) end.
  by destruct (isAborted error).
Qed.

Lemma discardDownload_tables (w : World) (i : string) :
  handles (watcher (discardDownload w i)) = handles (watcher w).
Proof.
  unfold discardDownload. destruct (items (downloads w) !! i) as [item|]; [|done].
  destruct (handles (watcher w) !! i); simpl; [done|].
  by destruct (cleanupDiscarded_frame w item) as (-> & _).
Qed.

Lemma find_inflight_Some (w : World) (ctx : nat) (h : IDownloadHandle) :
  find_inflight w ctx = Some h → h ∈ inflight w ∧ h_ctx h = ctx.
Proof.
  unfold find_inflight. intros [Hin Hc]%List.find_some.
  apply bool_decide_eq_true in Hc. by rewrite list_elem_of_In.
Qed.

Lemma handles_in_flight_step (w w' : World) (e : Event) :
  inv w → handles_in_flight w → step w e = Some w' → handles_in_flight w'.
Proof.
  intros Hinv Hw. destruct e as [a|i| |ctx pr bp et|ctx error]; simpl.
  - destruct (baseReducer _ _); intros [= <-]. exact Hw.
  - intros [= <-]. intros k h. rewrite discardDownload_tables.
    destruct (discardDownload_frame w i) as (_ & -> & _). apply Hw.
  - intros [= <-].
    destruct (updateDownloadState_cases w) as (_ & _ & Hcases).
    intros k h Hk.
    destruct Hcases as [(_ & _ & Hh & Hi & _)|[(a & cur & _ & _ & _ & Hwt & Hi & _)
                       |(a & _ & _ & _ & Hh & Hi & _)]].
    + rewrite Hh in Hk. rewrite Hi. by apply Hw.
    + rewrite Hwt in Hk. rewrite Hi. by apply Hw.
    + rewrite Hh in Hk. rewrite Hi.
      destruct (decide (id a = k)) as [<-|Hne].
      * rewrite lookup_insert_eq in Hk. injection Hk as <-. split; [done|].
        apply elem_of_app. right. apply list_elem_of_here.
      * rewrite lookup_insert_ne in Hk by done.
        destruct (Hw k h Hk) as [? ?]. split; [done|].
        apply elem_of_app. by left.
  - destruct (find_inflight _ _); intros [= <-]. exact Hw.
  - destruct (find_inflight _ _) as [h0|] eqn:Hf; intros [= <-].
    apply find_inflight_Some in Hf as [Hin0 Hc0].
    intros k h. rewrite start_finally_tables.
    destruct (start_finally_frame (remove_inflight w ctx) (h_item h0) error)
      as (_ & -> & _).
    simpl. intros [Hne Hk]%lookup_delete_Some.
    destruct (Hw k h Hk) as [Hid Hin]. split; [done|].
    rewrite list_elem_of_In. apply filter_In. rewrite <- list_elem_of_In.
    split; [done|]. apply negb_true_iff, bool_decide_eq_false.
    intros Hc. apply Hne.
    assert (h = h0) as ->; [|done].
    destruct Hinv as [_ _ _ _ Hnd].
    apply list_elem_of_lookup_1 in Hin as [n1 Hn1].
    apply list_elem_of_lookup_1 in Hin0 as [n2 Hn2].
    assert (n1 = n2) as ->; [|congruence].
    eapply NoDup_lookup; [exact Hnd| |].
    + rewrite list_lookup_fmap, Hn1. reflexivity.
    + rewrite list_lookup_fmap, Hn2. simpl. congruence.
Qed.

Lemma handles_in_flight_run (es : list Event) (w w' : World) :
  inv w → handles_in_flight w → run w es = Some w' → handles_in_flight w'.
Proof.
  revert w. induction es as [|e es IH]; intros w Hinv Hw; simpl.
  - by intros [= <-].
  - destruct (step w e) as [w1|] eqn:Hs; [|done]. simpl.
    apply IH; [by eapply inv_step|by eapply handles_in_flight_step].
Qed.

(** X7. Whatever happens to the queue from its start (actions, discards,
    ticks, progress reports, downloads settling), every entry of the table
    of handles is under the id of its own item, and its download has not
    settled yet: [start] adds the handle under [item.id] before it awaits
    the download, and its [finally] block deletes it under the same key. *)
Theorem handles_are_of_unsettled_downloads (s : IDownloadsState)
    (es : list Event) (w : World) :
  run (boot s) es = Some w →
  handles_in_flight w.
Proof.
  intros Hr. eapply handles_in_flight_run; [apply inv_boot| |exact Hr].
  intros k h Hk. simpl in Hk. by rewrite lookup_empty in Hk.
Qed.

Lemma handles_are_of_unsettled_downloads_witness :
  run (boot initialState) second_going = Some (world_after second_going)
  ∧ handles_in_flight (world_after second_going).
Proof.
  assert (H : run (boot initialState) second_going
              = Some (world_after second_going)) by (vm_compute; reflexivity).
  split; [exact H|].
  exact (handles_are_of_unsettled_downloads initialState second_going _ H).
Defined.

Lemma step_downloads (w w' : World) (e : Event) :
  step w e = Some w' →
  downloads w' = downloads w
  ∨ ∃ a, baseReducer (downloads w) a = Some (downloads w').
Proof.
  destruct e as [a|i| |ctx pr bp et|ctx error]; simpl.
  - destruct (baseReducer _ _) eqn:Hb; intros [= <-]. right. by exists a.
  - intros [= <-]. unfold discardDownload.
    destruct (items (downloads w) !! i) as [item|]; [|by left].
    right. exists (DownloadDiscarded i). simpl.
    destruct (handles (watcher w) !! i); [done|].
    by destruct (cleanupDiscarded_frame w item) as (_ & _ & _ & _ & ->).
  - intros [= <-]. left. by destruct (updateDownloadState_cases w) as (-> & _).
  - destruct (find_inflight _ _) as [h|]; intros [= <-]. right.
    by eexists (DownloadProgress _).
  - destruct (find_inflight _ _) as [h|]; intros [= <-].
    destruct (isCancelled error || isAborted error) eqn:Hc.
    + rewrite start_finally_interrupted by done.
      destruct (isAborted error); [|by left].
      right. by exists (DownloadDiscarded (id (h_item h))).
    + right. unfold start_finally. rewrite Hc. by eexists (DownloadEnded _).
Qed.

Lemma run_indexed (es : list Event) (w w' : World) :
  indexed_by_own_id (items (downloads w)) → run w es = Some w' →
  indexed_by_own_id (items (downloads w')).
Proof.
  revert w. induction es as [|e es IH]; intros w Hw; simpl.
  - by intros [= <-].
  - destruct (step w e) as [w1|] eqn:Hs; [|done]. simpl. apply IH.
    destruct (step_downloads _ _ _ Hs) as [->|[a Ha]]; [done|].
    by eapply baseReducer_indexed.
Qed.

(** X8. Discarding the download that is running, step by step: the
    discard handler only marks the id and removes the item from the store,
    without touching any folder; the next tick sends [graceful-cancel] to
    the running context and the download is no longer the current one;
    when the cancelled download then settles, its download folder is
    wiped, no [downloadEnded] is dispatched, and both the mark and the
    handle are gone. *)
Theorem discard_of_running_download (w : World) (i : string)
    (item : IDownloadItem) (h : IDownloadHandle) (e : JsError) :
  indexed_by_own_id (items (downloads w)) →
  items (downloads w) !! i = Some item →
  current (watcher w) = Some h →
  handles (watcher w) !! i = Some h →
  id (h_item h) = i →
  isCancelled (Some e) = true →
  isAborted (Some e) = false →
  let w1 := discardDownload w i in
  let w2 := updateDownloadState w1 in
  let w3 := start_finally (remove_inflight w2 (h_ctx h)) (h_item h) (Some e) in
  effects w1 = effects w ++ [Dispatch (DownloadDiscarded i)]
  ∧ items (downloads w1) = delete i (items (downloads w))
  ∧ i ∈ discarded (watcher w1)
  ∧ h_ctx h ∈ cancel_requested w2
  ∧ GracefulCancel (h_ctx h) ∈ effects w2
  ∧ (∀ h2, current (watcher w2) = Some h2 → id (h_item h2) ≠ i)
  ∧ effects w3 = effects w2 ++ cleanup_effects (h_item h)
  ∧ downloads w3 = downloads w2
  ∧ (i ∉ discarded (watcher w3))
  ∧ handles (watcher w3) !! i = None.
Proof.
  intros Hkeyed Hitem Hcur Hh Hid Hcan Habo w1 w2 w3.
  assert (Hw1 : w1 = dispatchDownloadDiscarded
                       (with_watcher w
                          {| current := current (watcher w);
                             handles := handles (watcher w);
                             discarded := {[ i ]} ∪ discarded (watcher w) |}) i).
  { subst w1. unfold discardDownload. by rewrite Hitem, Hh. }
  assert (Hitems1 : items (downloads w1) = delete i (items (downloads w))).
  { rewrite Hw1. simpl. unfold downloadDiscarded. by rewrite Hitem. }
  assert (Hcur1 : current (watcher w1) = Some h) by (by rewrite Hw1).
  assert (Hdis1 : i ∈ discarded (watcher w1)) by (rewrite Hw1; simpl; set_solver).
  assert (Hh1 : handles (watcher w1) !! i = Some h) by (by rewrite Hw1).
  destruct (updateDownloadState_cases w1) as (Hd2 & Hdis2 & Hcases).
  fold w2 in Hd2, Hdis2, Hcases.
  assert (Hactive : ∀ a, activeItem (downloads w1) = Some a → id a ≠ i).
  { intros a Ha. unfold activeItem in Ha.
    destruct (paused (downloads w1)); [done|].
    apply getActiveDownload_minimal in Ha as [Hin _].
    apply elem_of_values in Hin as [k Hk]. rewrite Hitems1 in Hk.
    apply lookup_delete_Some in Hk as [Hne Hk].
    by rewrite (Hkeyed _ _ Hk). }
  assert (Htick : h_ctx h ∈ cancel_requested w2
                  ∧ GracefulCancel (h_ctx h) ∈ effects w2
                  ∧ (∀ h2, current (watcher w2) = Some h2 → id (h_item h2) ≠ i)
                  ∧ handles (watcher w2) !! i = Some h).
  { destruct Hcases as [(_ & Hc & Hhs & _ & _ & Hgc)
                       |[(a & cur & Ha & Hc & Hida & _)
                       |(a & Ha & _ & Hc & Hhs & _ & Hgc)]].
    - destruct (Hgc h Hcur1). split_and!; [done..| |by rewrite Hhs].
      intros h2. by rewrite Hc.
    - exfalso. apply (Hactive a Ha). rewrite Hcur1 in Hc. injection Hc as <-.
      congruence.
    - destruct (Hgc h Hcur1). split_and!; [done..| |].
      + intros h2. rewrite Hc. intros [= <-]. simpl. by apply Hactive.
      + rewrite Hhs, lookup_insert_ne; [done|]. by apply Hactive. }
  destruct Htick as (Hreq & Hgc & Hcur2 & Hh2).
  assert (Hw3 : w3 = cleanupDiscarded
                       (with_watcher (remove_inflight w2 (h_ctx h))
                          {| current := current (watcher w2);
                             handles := delete i (handles (watcher w2));
                             discarded := discarded (watcher w2) ∖ {[ i ]} |})
                       (h_item h)).
  { subst w3. unfold start_finally. rewrite Hcan, Habo. simpl. rewrite Hid.
    rewrite Hdis2. rewrite bool_decide_eq_true_2 by done. done. }
  split_and!; try done.
  - by rewrite Hw1.
  - by rewrite Hw3, cleanupDiscarded_effects.
  - rewrite Hw3.
    by destruct (cleanupDiscarded_frame
                   (with_watcher (remove_inflight w2 (h_ctx h))
                      {| current := current (watcher w2);
                         handles := delete i (handles (watcher w2));
                         discarded := discarded (watcher w2) ∖ {[ i ]} |})
                   (h_item h)) as (_ & _ & _ & _ & ->).
  - rewrite Hw3.
    destruct (cleanupDiscarded_frame
                (with_watcher (remove_inflight w2 (h_ctx h))
                   {| current := current (watcher w2);
                      handles := delete i (handles (watcher w2));
                      discarded := discarded (watcher w2) ∖ {[ i ]} |})
                (h_item h)) as (-> & _).
    simpl. set_solver.
  - rewrite Hw3.
    destruct (cleanupDiscarded_frame
                (with_watcher (remove_inflight w2 (h_ctx h))
                   {| current := current (watcher w2);
                      handles := delete i (handles (watcher w2));
                      discarded := discarded (watcher w2) ∖ {[ i ]} |})
                (h_item h)) as (-> & _).
    simpl. apply lookup_delete_eq.
Qed.

Lemma discard_of_running_download_witness :
  let w := world_after second_going in
  let w2 := updateDownloadState (discardDownload w "y") in
  let w3 := start_finally (remove_inflight w2 (h_ctx running_y))
                          (h_item running_y) (Some cancelled_error) in
  GracefulCancel (h_ctx running_y) ∈ effects w2
  ∧ effects w3 = effects w2 ++ cleanup_effects (h_item running_y)
  ∧ handles (watcher w3) !! "y" = None.
Proof.
  intros w w2 w3.
  assert (Hr : run initialWorld second_going = Some w) by (vm_compute; reflexivity).
  assert (Hk : indexed_by_own_id (items (downloads w))).
  { eapply run_indexed; [|exact Hr]. intros k x Hx. simpl in Hx.
    by rewrite lookup_empty in Hx. }
  assert (Hi : items (downloads w) !! "y" = Some (h_item running_y))
    by (vm_compute; reflexivity).
  assert (Hc : current (watcher w) = Some running_y) by (vm_compute; reflexivity).
  assert (Hh : handles (watcher w) !! "y" = Some running_y)
    by (vm_compute; reflexivity).
  pose proof (discard_of_running_download w "y" (h_item running_y) running_y
                cancelled_error Hk Hi Hc Hh eq_refl eq_refl eq_refl) as H.
  cbv zeta in H. destruct H as (_ & _ & _ & _ & H5 & _ & H7 & _ & _ & H10).
  split_and!; [exact H5|exact H7|exact H10].
Defined.

(** X9. Over every run of the queue, an install folder is wiped only for
    a download whose reason is [install] and whose item carries an error;
    every wipe of an install folder has a wipe of the download folder of
    the same item before it; and up to any point of the run, the install
    folder of an item was wiped at most as many times as its download
    folder, so that no two wipes of an install folder rest on the same
    wipe of the download folder. *)
Theorem install_folder_wiped_only_for_failed_install (s : IDownloadsState)
    (es : list Event) (w : World) :
  run (boot s) es = Some w →
  (∀ item, WipeInstallFolder item ∈ effects w →
           reason item = install ∧ truthy (err item) = true)
  ∧ (∀ item before after,
       effects w = before ++ WipeInstallFolder item :: after →
       WipeDownloadFolder item ∈ before)
  ∧ (∀ item before after, effects w = before ++ after →
       (length (List.filter (is_install_wipe_of item) before)
        ≤ length (List.filter (is_download_wipe_of item) before))%nat).
Proof.
  intros Hr. destruct (run_new _ _ _ Hr) as (new & Heq & Hnew).
  simpl in Heq. rewrite Heq. split_and!; [apply Hnew| |apply Hnew].
  intros item before after Hsplit.
  by apply (wipes_justified_before new before after item).
Qed.

Lemma install_folder_wiped_only_for_failed_install_witness :
  run (boot two_items) [Discard "a"] = Some failed_install_discarded
  ∧ effects failed_install_discarded
    = [WipeDownloadFolder item_a; WipeInstallFolder item_a;
       Dispatch (DownloadDiscarded "a")]
  ∧ (∀ item before after,
       effects failed_install_discarded
       = before ++ WipeInstallFolder item :: after →
       WipeDownloadFolder item ∈ before).
Proof.
  assert (H : run (boot two_items) [Discard "a"] = Some failed_install_discarded)
    by (vm_compute; reflexivity).
  split_and!; [exact H|vm_compute; reflexivity|].
  exact (proj1 (proj2 (install_folder_wiped_only_for_failed_install two_items
                         [Discard "a"] failed_install_discarded H))).
Defined.

(** X10. A tick while the queue is paused leaves nothing running: there is
    no current download, no download in flight that was not sent
    [graceful-cancel], the tick starts no download, and the store is the
    same. *)
Theorem tick_while_paused_stops_everything (s : IDownloadsState)
    (es : list Event) (w : World) :
  run (boot s) es = Some w →
  paused (downloads w) = true →
  let w' := updateDownloadState w in
  current (watcher w') = None
  ∧ (∀ h, ¬ live w' h)
  ∧ List.filter is_start (effects w') = List.filter is_start (effects w)
  ∧ downloads w' = downloads w.
Proof.
  intros Hr Hp w'.
  assert (Hinv : inv w) by (eapply inv_run; [apply inv_boot|exact Hr]).
  assert (Hinv' : inv w') by (by apply inv_updateDownloadState).
  assert (Hact : activeItem (downloads w) = None)
    by (unfold activeItem; by rewrite Hp).
  destruct (updateDownloadState_cases w) as (Hd & _ & Hcases).
  fold w' in Hd, Hcases.
  destruct Hcases as [(_ & Hc & _ & _ & Hf & _)|[(a & cur & Ha & _)|(a & Ha & _)]];
    [|congruence..].
  split_and!; [done| |done..].
  intros h [Hin Hnot]. destruct Hinv' as [Hlive _ _ _ _].
  rewrite (Hlive h Hin Hnot) in Hc. done.
Qed.

Lemma tick_while_paused_stops_everything_witness :
  run (boot initialState) then_paused = Some (world_after then_paused)
  ∧ paused (downloads (world_after then_paused)) = true
  ∧ current (watcher (updateDownloadState (world_after then_paused))) = None
  ∧ ∀ h, ¬ live (updateDownloadState (world_after then_paused)) h.
Proof.
  assert (H : run (boot initialState) then_paused = Some (world_after then_paused))
    by (vm_compute; reflexivity).
  assert (Hp : paused (downloads (world_after then_paused)) = true)
    by (vm_compute; reflexivity).
  pose proof (tick_while_paused_stops_everything initialState then_paused
                (world_after then_paused) H Hp) as (H1 & H2 & _).
  split_and!; [exact H|exact Hp|exact H1|exact H2].
Defined.

(** X11. Ticks are idempotent on the queue: right after a tick, another
    tick changes neither the watcher's state, nor the downloads in flight,
    nor the cancelled contexts, nor the store; all it does is set the
    progress once more. *)
Theorem second_tick_only_sets_progress (w : World) :
  let w1 := updateDownloadState w in
  let w2 := updateDownloadState w1 in
  watcher w2 = watcher w1
  ∧ inflight w2 = inflight w1
  ∧ cancel_requested w2 = cancel_requested w1
  ∧ next_ctx w2 = next_ctx w1
  ∧ downloads w2 = downloads w1
  ∧ ∃ alpha, effects w2 = effects w1 ++ [SetProgress alpha].
Proof.
  intros w1 w2.
  destruct (updateDownloadState_cases w) as (Hd & _ & Hcases).
  fold w1 in Hd, Hcases.
  assert (Hcur : (current (watcher w1) = None
                  ∧ activeItem (downloads w1) = None)
                 ∨ ∃ a cur, activeItem (downloads w1) = Some a
                            ∧ current (watcher w1) = Some cur
                            ∧ id (h_item cur) = id a).
  { rewrite Hd.
    destruct Hcases as [(Ha & Hc & _)|[(a & cur & Ha & Hc & Hid & Hw & _)
                       |(a & Ha & _ & Hc & _)]].
    - by left.
    - right. exists a, cur. by rewrite Hw.
    - right. by eexists a, _. }
  subst w2. unfold updateDownloadState. unfold activeItem in Hcur.
  destruct Hcur as [[Hc Ha]|(a & cur & Ha & Hc & Hid)].
  - destruct (paused (downloads w1)).
    + rewrite Hc. split_and!; [done..|]. by eexists.
    + rewrite Ha. simpl. rewrite Hc. split_and!; [done..|]. by eexists.
  - destruct (paused (downloads w1)); [done|].
    rewrite Ha. simpl. rewrite Hc.
    rewrite bool_decide_eq_false_2 by (intros Hne; by apply Hne).
    split_and!; [done..|]. by eexists.
Qed.

(** X12. When a download that was cancelled settles while a newer download
    of the same item is the current one, the [finally] block deletes the
    entry of the table of handles under the item's id, which by then is
    the entry of the newer download: that download is still current and in
    flight, but has no handle any more, so that a discard of the item
    wipes its folders at once, without marking it, while that download is
    still the current one. *)
Theorem stale_settle_drops_the_running_handle (w : World)
    (h1 h2 : IDownloadHandle) (error : option JsError) :
  find_inflight w (h_ctx h1) = Some h1 →
  current (watcher w) = Some h2 →
  h2 ∈ inflight w →
  h_ctx h2 ≠ h_ctx h1 →
  id (h_item h2) = id (h_item h1) →
  ∃ w', step w (Settle (h_ctx h1) error) = Some w'
        ∧ current (watcher w') = Some h2
        ∧ h2 ∈ inflight w'
        ∧ cancel_requested w' = cancel_requested w
        ∧ handles (watcher w') !! id (h_item h2) = None
        ∧ ∀ item, items (downloads w') !! id (h_item h2) = Some item →
            effects (discardDownload w' (id (h_item h2)))
            = effects w' ++ cleanup_effects item
              ++ [Dispatch (DownloadDiscarded (id (h_item h2)))]
            ∧ discarded (watcher (discardDownload w' (id (h_item h2))))
              = discarded (watcher w')
            ∧ current (watcher (discardDownload w' (id (h_item h2))))
              = Some h2.
Proof.
  intros Hf Hcur Hin Hctx Hid.
  exists (start_finally (remove_inflight w (h_ctx h1)) (h_item h1) error).
  destruct (start_finally_frame (remove_inflight w (h_ctx h1)) (h_item h1) error)
    as (Hc & Hi & Hr & _).
  split_and!.
  - simpl. by rewrite Hf.
  - by rewrite Hc.
  - rewrite Hi. simpl. rewrite list_elem_of_In. apply filter_In.
    rewrite <- list_elem_of_In. split; [done|].
    by apply negb_true_iff, bool_decide_eq_false.
  - by rewrite Hr.
  - rewrite start_finally_tables, Hid. apply lookup_delete_eq.
  - intros item Hitem. unfold discardDownload. rewrite Hitem.
    rewrite start_finally_tables, Hid, lookup_delete_eq. simpl.
    rewrite cleanupDiscarded_effects, <- app_assoc.
    destruct (cleanupDiscarded_frame
                (start_finally (remove_inflight w (h_ctx h1)) (h_item h1) error)
                item) as (-> & _).
    by rewrite Hc.
Qed.

Lemma stale_settle_drops_the_running_handle_witness :
  ∃ w', step (world_after restarted) (Settle 0 (Some cancelled_error)) = Some w'
        ∧ current (watcher w') = Some (handle_x 1)
        ∧ handles (watcher w') !! "x" = None.
Proof.
  destruct (stale_settle_drops_the_running_handle (world_after restarted)
              (handle_x 0) (handle_x 1) (Some cancelled_error))
    as (w' & H1 & H2 & _ & _ & H5 & _).
  - vm_compute. reflexivity.
  - vm_compute. reflexivity.
  - assert (E : inflight (world_after restarted) = [handle_x 0; handle_x 1])
      by (vm_compute; reflexivity).
    rewrite E. apply list_elem_of_further, list_elem_of_here.
  - discriminate.
  - reflexivity.
  - exists w'. split_and!; [exact H1|exact H2|exact H5].
Defined.

(** X13. A download that ends by itself, or with an error that is neither
    a cancellation nor an abort, is recorded: when its item is still in
    the store, one [downloadEnded] is dispatched, after which the item is
    finished, carries the message of the error (none for a success), has
    its progress, speed and remaining time at zero and keeps its rank; the
    other items are as they were; the download is no longer in flight and
    has no handle; and the selection of the active download does not
    return the item again. *)
Theorem settled_download_is_recorded (w : World) (h : IDownloadHandle)
    (error : option JsError) (item : IDownloadItem) :
  indexed_by_own_id (items (downloads w)) →
  find_inflight w (h_ctx h) = Some h →
  items (downloads w) !! id (h_item h) = Some item →
  isCancelled error || isAborted error = false →
  ∃ w' p item',
    step w (Settle (h_ctx h) error) = Some w'
    ∧ effects w' = effects w ++ [Dispatch (DownloadEnded p)]
    ∧ e_id p = id (h_item h)
    ∧ e_err p = match error with
                | Some e => Some (if truthy (Some (message e)) then message e
                                  else to_string e)
                | None => None
                end
    ∧ items (downloads w') = <[id (h_item h) := item']> (items (downloads w))
    ∧ finished item' = true
    ∧ err item' = e_err p
    ∧ rank item' = rank item
    ∧ reason item' = reason item
    ∧ (progress item', bps item', eta item') = (Some 0, Some 0, Some 0)
    ∧ (∀ h', h' ∈ inflight w' → h_ctx h' ≠ h_ctx h)
    ∧ handles (watcher w') !! id (h_item h) = None
    ∧ ∀ a, getActiveDownload (downloads w') = Some a → id a ≠ id (h_item h).
Proof.
  intros Hkeyed Hf Hitem Hplain.
  set (w0 := remove_inflight w (h_ctx h)).
  set (p := {| e_id := id item; e_item := Some item; e_finishedAt := None;
               e_err := match error with
                        | Some e => Some (if truthy (Some (message e))
                                          then message e else to_string e)
                        | None => None
                        end;
               e_errStack := match error with
                             | Some e => stack e
                             | None => None
                             end |}).
  assert (Hidi : id item = id (h_item h)) by (by apply Hkeyed).
  assert (Hw' : start_finally w0 (h_item h) error
                = dispatchDownloadEnded
                    (with_watcher w0
                       {| current := current (watcher w0);
                          handles := delete (id (h_item h)) (handles (watcher w0));
                          discarded := discarded (watcher w0) |}) p).
  { unfold start_finally. rewrite Hplain. simpl. by rewrite Hitem. }
  set (item' := spread item
                  {| p_id := e_id p; p_rank := None; p_finished := Some true;
                     p_finishedAt := Some (e_finishedAt p);
                     p_progress := Some (Some 0); p_eta := Some (Some 0);
                     p_bps := Some (Some 0);
                     p_err := Some (e_err p);
                     p_errStack := Some (e_errStack p) |}).
  assert (Hitems : items (downloads (start_finally w0 (h_item h) error))
                   = <[id (h_item h) := item']> (items (downloads w))).
  { rewrite Hw'. unfold item', p. simpl. unfold downloadEnded, updateSingle.
    simpl. rewrite Hidi, Hitem. done. }
  exists (start_finally w0 (h_item h) error), p, item'.
  split_and!; try done.
  - simpl. by rewrite Hf.
  - by rewrite Hw'.
  - destruct (start_finally_frame w0 (h_item h) error) as (_ & -> & _).
    intros h'. simpl. rewrite list_elem_of_In. intros [_ Hc]%filter_In.
    by apply negb_true_iff, bool_decide_eq_false in Hc.
  - rewrite start_finally_tables. apply lookup_delete_eq.
  - intros a [Hin [Hfin _]]%getActiveDownload_minimal Hida.
    apply elem_of_values in Hin as [k Hk]. rewrite Hitems in Hk.
    destruct (decide (id (h_item h) = k)) as [<-|Hne].
    + rewrite lookup_insert_eq in Hk. injection Hk as <-. done.
    + rewrite lookup_insert_ne in Hk by done.
      apply Hne. rewrite <- Hida. exact (Hkeyed _ _ Hk).
Qed.

Lemma settled_download_is_recorded_witness :
  ∃ w' p item',
    step (world_after second_going) (Settle 1 (Some plain_error)) = Some w'
    ∧ items (downloads w')
      = <["y" := item']> (items (downloads (world_after second_going)))
    ∧ finished item' = true
    ∧ err item' = e_err p
    ∧ e_err p = Some "ENOSPC".
Proof.
  assert (Hr : run initialWorld second_going = Some (world_after second_going))
    by (vm_compute; reflexivity).
  destruct (settled_download_is_recorded (world_after second_going) running_y
              (Some plain_error) (h_item running_y))
    as (w' & p & item' & H1 & _ & _ & H4 & H5 & H6 & H7 & _).
  - eapply run_indexed; [|exact Hr]. intros k x Hx. simpl in Hx.
    by rewrite lookup_empty in Hx.
  - vm_compute. reflexivity.
  - vm_compute. reflexivity.
  - reflexivity.
  - exists w', p, item'. split_and!; [exact H1|exact H5|exact H6|exact H7|exact H4].
Defined.

End WatcherLifecycle.

(** ** util/deploy: what a deploy does to the destination *)

Section DeployOutcomes.
Import Deploy Samples.

Lemma deployGeneric_stage (opts : IDeployOpts) (o : Outcomes) (d : Disk) :
  stage (deployGeneric opts o d).1 = stage d.
Proof.
  unfold deployGeneric.
  destruct (mkdir_ok o); simpl; [|done].
  destruct (logger opts); simpl; [|done].
  destruct (wipeAll o (dinosaurs d)) as [gone [|]]; simpl; [|done].
  destruct (ditto_ok o); simpl; [|done].
  destruct (write_ok o); simpl; [done|].
  unfold torn. by destruct (torn_receipt o).
Qed.

(** X14. However a deploy ends, it removes from the destination nothing
    but dinosaurs: a file that is staged, or that a receipt with files
    does not list, is still there afterwards; and the stage is left as it
    was. *)
Theorem deploy_removes_only_dinosaurs (opts : IDeployOpts) (o : Outcomes)
    (d : Disk) :
  let d' := (deploy opts o d).1 in
  (∀ x, x ∈ dest d → x ∉ dinosaurs d → x ∈ dest d')
  ∧ (∀ x, x ∈ dest d → x ∈ stage d → x ∈ dest d')
  ∧ (∀ x, x ∈ dest d → receiptFiles (receipt d) ≠ [] →
          x ∉ receiptFiles (receipt d) → x ∈ dest d')
  ∧ stage d' = stage d.
Proof.
  intros d'.
  assert (Hkeep : ∀ x, x ∈ dest d → x ∉ dinosaurs d → x ∈ dest d').
  { subst d'.
    destruct (deploy_cases opts o d) as [[_ ->]|[[_ ->]|[_ [->| ->]]]];
      [done|done| |done].
    intros x Hx Hnot.
    pose proof (deployGeneric_cases opts o d) as H. simpl in H.
    destruct (deployGeneric opts o d).2 as [status|[]]; try done.
    - destruct H as (_ & _ & ->). simpl. set_solver.
    - by rewrite H.
    - by rewrite H.
    - destruct H as (gone & -> & Hgone & _). simpl.
      apply elem_of_difference. split; [done|].
      rewrite elem_of_list_to_set. intros Hg. by apply Hnot, Hgone.
    - rewrite H. simpl. set_solver.
    - destruct H as (_ & _ & ->). unfold torn.
      destruct (torn_receipt o); simpl; set_solver. }
  split_and!; [done| | |].
  - intros x Hx Hs. apply Hkeep; [done|]. rewrite elem_of_dinosaurs. tauto.
  - intros x Hx Hne Hnot. apply Hkeep; [done|]. rewrite elem_of_dinosaurs.
    intros [Hin _]. apply Hnot. unfold destFiles in Hin.
    rewrite bool_decide_eq_false_2 in Hin; [done|].
    by destruct (receiptFiles (receipt d)).
  - subst d'.
    destruct (deploy_cases opts o d) as [[_ ->]|[[_ ->]|[_ [->| ->]]]];
      [done|done| |done].
    apply deployGeneric_stage.
Qed.

(** X15. The files of the destination after a deploy, by the way it
    ended; the receipt file is one of them. Returned: the files that were
    there, without the dinosaurs, with the staged files and the receipt
    file (or the disk as it was, when the single-file listener took
    over). Failed in the listing of the stage, in the listener, in
    [mkdir] or for want of a logger: the disk as it was. Failed while
    wiping: nothing was added, the files that are missing are dinosaurs
    whose wipe succeeded, the receipt reads as before if its file is
    still there, and some dinosaur could not be wiped. Failed while
    merging: the dinosaurs are gone, and what was added is what the merge
    copied. Failed while writing the receipt: the files are all in place,
    with the receipt file if the write got as far as touching it. *)
Theorem deploy_destination_by_outcome (opts : IDeployOpts) (o : Outcomes)
    (d : Disk) :
  let d' := (deploy opts o d).1 in
  let kept := dest d ∖ list_to_set (dinosaurs d) in
  match (deploy opts o d).2 with
  | Returned _ =>
      if short_circuits opts d then d' = d
      else dest d' = kept ∪ list_to_set (stage d) ∪ {[ receiptRel ]}
  | Thrown AtGlobStage | Thrown AtSingle | Thrown AtMkdir | Thrown AtLogger =>
      d' = d
  | Thrown AtWipe =>
      dest d' ⊆ dest d
      ∧ (∀ x, x ∈ dest d → x ∉ dinosaurs d → x ∈ dest d')
      ∧ (∀ x, x ∈ dest d → x ∉ dest d' →
              x ∈ dinosaurs d ∧ wipe_ok o x = true)
      ∧ (receiptRel ∈ dest d' → receipt d' = receipt d)
      ∧ ∃ rel, rel ∈ dinosaurs d ∧ wipe_ok o rel = false
  | Thrown AtDitto => dest d' = kept ∪ list_to_set (ditto_copied o)
  | Thrown AtWriteReceipt =>
      match torn_receipt o with
      | NoReceipt => dest d' = kept ∪ list_to_set (stage d)
      | _ => dest d' = kept ∪ list_to_set (stage d) ∪ {[ receiptRel ]}
      end
  end.
Proof.
  intros d' kept. subst d' kept.
  destruct (deploy_cases opts o d) as [[_ ->]|[[-> ->]|[-> [->| ->]]]];
    simpl; [done|done| |done].
  pose proof (deployGeneric_cases opts o d) as H. simpl in H.
  destruct (deployGeneric opts o d).2 as [status|[]]; try done.
  - by destruct H as (_ & _ & ->).
  - destruct H as (gone & -> & Hgone & Hfail). simpl.
    assert (Hmiss : ∀ x, x ∈ dest d → x ∉ dest d ∖ list_to_set gone → x ∈ gone).
    { intros x Hx Hn. destruct (decide (x ∈ gone)) as [|Hng]; [done|].
      exfalso. apply Hn. apply elem_of_difference. split; [done|].
      by rewrite elem_of_list_to_set. }
    split_and!; [set_solver| | | |done].
    + intros x Hx Hnot. apply elem_of_difference. split; [done|].
      rewrite elem_of_list_to_set. intros Hg. by apply Hnot, Hgone.
    + intros x Hx Hn. by apply Hgone, Hmiss.
    + intros Hin. case_bool_decide as Hr; [|done].
      apply elem_of_difference in Hin as [_ Hin]. exfalso. apply Hin.
      by rewrite elem_of_list_to_set.
  - by rewrite H.
  - destruct H as (_ & _ & ->). unfold torn.
    by destruct (torn_receipt o).
Qed.

Lemma list_difference_self (l : list string) : list_difference l l = [].
Proof.
  destruct (list_difference l l) as [|x k] eqn:E; [done|].
  assert (Hx : x ∈ list_difference l l) by (rewrite E; apply list_elem_of_here).
  apply list_elem_of_difference in Hx as [? ?]. done.
Qed.

(** X16. Deploying the same stage again changes nothing: after a deploy of
    a stage that is not empty has returned (the single-file listener not
    having taken over), the destination has no dinosaurs, so that another
    deploy wipes nothing, cannot fail while wiping, and, when it returns,
    leaves the disk exactly as the first one left it. *)
Theorem redeploy_changes_nothing (opts : IDeployOpts) (o o' : Outcomes)
    (d d' : Disk) (status : string) :
  stage d ≠ [] →
  short_circuits opts d = false →
  deploy opts o d = (d', Returned status) →
  dinosaurs d' = []
  ∧ (deploy opts o' d').2 ≠ Thrown AtWipe
  ∧ (∀ status', (deploy opts o' d').2 = Returned status' →
                (deploy opts o' d').1 = d').
Proof.
  intros Hne Hs Hdep.
  assert (Hgen : deployGeneric opts o d = (d', Returned status)).
  { destruct (deploy_cases opts o d) as [[_ H]|[[Hs' _]|[_ [H|H]]]]; congruence. }
  pose proof (deployGeneric_cases opts o d) as Hd'.
  rewrite Hgen in Hd'. simpl in Hd'. destruct Hd' as (_ & _ & Hd').
  assert (Hst : stage d' = stage d) by (by rewrite Hd').
  assert (Hrec : receipt d' = Receipt (cave opts) (Some (stage d)))
    by (by rewrite Hd').
  assert (Hin : receiptRel ∈ dest d' ∧ ∀ x, x ∈ stage d → x ∈ dest d').
  { rewrite Hd'. simpl. set_solver. }
  assert (Hdin : dinosaurs d' = []).
  { unfold dinosaurs, destFiles. rewrite Hrec, Hst. simpl.
    rewrite bool_decide_eq_false_2 by (by destruct (stage d)).
    apply list_difference_self. }
  assert (Hs' : short_circuits opts d' = false).
  { unfold short_circuits in *. by rewrite Hst. }
  clear Hd' Hgen Hdep.
  pose proof (deployGeneric_cases opts o' d') as H. simpl in H.
  rewrite Hdin in H.
  destruct (deploy_cases opts o' d') as [[_ ->]|[[? _]|[_ [E | ->]]]];
    [done|congruence| |done].
  rewrite E.
  destruct (deployGeneric opts o' d').2 as [status'|[]]; try done.
  - split_and!; [done..|]. intros _ _. destruct H as (_ & _ & ->).
    rewrite Hst, <- Hrec. destruct Hin as [Hr Hstage].
    destruct d' as [s sr dd r]. simpl in *.
    unfold written, merged, wiped, with_receipt, with_dest. simpl.
    f_equal. set_solver.
  - destruct H as (gone & _ & _ & rel & Hrel & _). by apply elem_of_nil in Hrel.
Qed.

Lemma redeploy_changes_nothing_witness :
  let d' := (deploy plain_opts all_ok abc_then_bcd).1 in
  dinosaurs d' = []
  ∧ (deploy plain_opts all_ok d').2 ≠ Thrown AtWipe
  ∧ (∀ status', (deploy plain_opts all_ok d').2 = Returned status' →
                (deploy plain_opts all_ok d').1 = d').
Proof.
  apply (redeploy_changes_nothing plain_opts all_ok all_ok abc_then_bcd
           (deploy plain_opts all_ok abc_then_bcd).1 "ok").
  - discriminate.
  - reflexivity.
  - vm_compute. reflexivity.
Defined.

End DeployOutcomes.

(** ** reverting a cave to an older build *)

Section RevertFacts.
Import Revert Samples.

Lemma pickedBuild_app (remote : list Build) (b : Build) (buildId : option Z) :
  pickedBuild (remote ++ [b]) buildId
  = if bool_decide (Some (b_id b) = buildId) then Some b
    else pickedBuild remote buildId.
Proof. unfold pickedBuild. by rewrite fold_left_app. Qed.

(** The picked build is the last build of the list with the wanted id. *)
Lemma pickedBuild_Some (remote : list Build) (buildId : option Z) (b : Build) :
  pickedBuild remote buildId = Some b →
  Some (b_id b) = buildId
  ∧ ∃ l1 l2, remote = l1 ++ b :: l2
             ∧ ∀ x, x ∈ l2 → Some (b_id x) ≠ buildId.
Proof.
  induction remote as [|y l IH] using rev_ind; [done|].
  rewrite pickedBuild_app. case_bool_decide as Hy.
  - intros [= ->]. split; [done|]. exists l, []. split; [done|].
    by intros x ?%elem_of_nil.
  - intros (Hb & l1 & l2 & -> & Hl2)%IH. split; [done|].
    exists l1, (l2 ++ [y]). split; [by rewrite <- app_assoc|].
    intros x [Hx|Hx%list_elem_of_singleton]%elem_of_app; [by apply Hl2|by subst].
Qed.


Lemma elem_of_remoteBuilds (builds : list Build) (currentBuild b : Build) :
  b ∈ remoteBuilds builds currentBuild ↔ b ∈ builds ∧ b_id b < b_id currentBuild.
Proof.
  unfold remoteBuilds. rewrite !list_elem_of_In, filter_In.
  by rewrite bool_decide_eq_true.
Qed.

(** The work, by its last step: it stops before the modal without having
    queued anything, or it shows the older builds and then returns,
    throws or queues one download. *)
Lemma work_cases (w : World) (cave : ICaveRecord) :
  (List.filter is_queue (work w cave).1 = []
   ∧ ∀ t r, ShowModal t r ∉ (work w cave).1)
  ∨ ∃ game up currentBuild key builds pre,
      got_game w = inr (Some game)
      ∧ upload cave = Some up ∧ build cave = Some currentBuild
      ∧ is_Some (credentials w)
      ∧ game_credentials w = inr (Some key)
      ∧ buildsList w = inr builds
      ∧ pre = [LazyGetGame (gameId cave); GetGameCredentials;
               ListBuilds key (u_id up);
               ShowModal (title game) (remoteBuilds builds currentBuild)]
      ∧ match response w with
        | None => work w cave = (pre, None)
        | Some buildId =>
            match pickedBuild (remoteBuilds builds currentBuild) buildId with
            | None =>
                work w cave
                = (pre, Some (PickedBuildNotFound buildId
                                (remoteBuilds builds currentBuild)))
            | Some picked =>
                work w cave
                = (pre ++ [QueueDownload
                             {| q_caveId := cave_id cave; q_game := game;
                                q_upload := up; q_build := picked;
                                q_reason := Downloads.revert |}], None)
            end
        end.
Proof.
  unfold work.
  destruct (got_game w) as [e|game] eqn:Hg.
  { left. split; [done|]. intros t r Hin%list_elem_of_singleton. discriminate. }
  destruct (upload cave) as [up|] eqn:Hu.
  2: { left. split; [done|]. intros t r Hin%list_elem_of_singleton. discriminate. }
  destruct (build cave) as [currentBuild|] eqn:Hb.
  2: { left. split; [done|]. intros t r Hin%list_elem_of_singleton. discriminate. }
  assert (Hno2 : ∀ t r, ShowModal t r ∉ [LazyGetGame (gameId cave)]
                                       ++ [GetGameCredentials]).
  { intros t r Hin. simpl in Hin.
    repeat (apply elem_of_cons in Hin as [Hin|Hin]; [discriminate|]).
    by apply elem_of_nil in Hin. }
  destruct (game_credentials w) as [e|gc] eqn:Hgc; [by left|].
  destruct (credentials w) as [k|] eqn:Hk; [|by left].
  destruct gc as [key|]; [|by left].
  assert (Hno3 : ∀ t r, ShowModal t r ∉ ([LazyGetGame (gameId cave)]
                                        ++ [GetGameCredentials])
                                       ++ [ListBuilds key (u_id up)]).
  { intros t r Hin. simpl in Hin.
    repeat (apply elem_of_cons in Hin as [Hin|Hin]; [discriminate|]).
    by apply elem_of_nil in Hin. }
  destruct (buildsList w) as [e|builds] eqn:Hl; [by left|].
  destruct game as [game|]; [|by left].
  right. exists game, up, currentBuild, key, builds. eexists.
  split_and!; [done..|by eexists|done|done|reflexivity|].
  destruct (response w) as [buildId|]; [|done].
  by destruct (pickedBuild _ _).
Qed.

(** X21. A download that the revert queues is for a build that the server
    lists for the cave's upload, that is strictly older than the build the
    cave is at, and whose id is the one picked in the modal (the last such
    build of the list, should several share the id); it is queued for the
    cave and its upload, with reason [revert], as the last thing the work
    does, and the work then returns. *)
Theorem revert_queues_an_older_listed_build (w : World) (cave : ICaveRecord)
    (q : IQueueDownloadOpts) :
  QueueDownload q ∈ (work w cave).1 →
  q_caveId q = cave_id cave
  ∧ q_reason q = Downloads.revert
  ∧ upload cave = Some (q_upload q)
  ∧ got_game w = inr (Some (q_game q))
  ∧ response w = Some (Some (b_id (q_build q)))
  ∧ (∃ builds currentBuild,
       buildsList w = inr builds ∧ build cave = Some currentBuild
       ∧ q_build q ∈ builds
       ∧ b_id (q_build q) < b_id currentBuild
       ∧ ∃ l1 l2, remoteBuilds builds currentBuild = l1 ++ q_build q :: l2
                  ∧ ∀ x, x ∈ l2 → b_id x ≠ b_id (q_build q))
  ∧ (work w cave).2 = None
  ∧ List.filter is_queue (work w cave).1 = [QueueDownload q]
  ∧ last (work w cave).1 = Some (QueueDownload q).
Proof.
  intros Hin.
  assert (Hf : QueueDownload q ∈ List.filter is_queue (work w cave).1).
  { rewrite list_elem_of_In. apply filter_In. by rewrite <- list_elem_of_In. }
  destruct (work_cases w cave)
    as [[Hnone _]|(game & up & cur & key & builds & pre & Hg & Hu & Hb & Hc & Hgc
                   & Hl & -> & Hresp)].
  { rewrite Hnone in Hf. by apply elem_of_nil in Hf. }
  destruct (response w) as [buildId|] eqn:Hr.
  2: { rewrite Hresp in Hf. by apply elem_of_nil in Hf. }
  destruct (pickedBuild (remoteBuilds builds cur) buildId) as [picked|] eqn:Hp.
  2: { rewrite Hresp in Hf. by apply elem_of_nil in Hf. }
  rewrite Hresp in Hf |- *. simpl in Hf.
  apply list_elem_of_singleton in Hf as [= ->]. simpl.
  destruct (pickedBuild_Some _ _ _ Hp) as (Hid & l1 & l2 & Hsplit & Hl2).
  assert (Hpicked : picked ∈ remoteBuilds builds cur).
  { rewrite Hsplit. apply elem_of_app. right. apply list_elem_of_here. }
  apply elem_of_remoteBuilds in Hpicked as [Hin1 Hlt].
  split_and!; try done.
  - by rewrite <- Hid.
  - exists builds, cur. split_and!; try done.
    exists l1, l2. split; [done|]. intros x Hx Heq. apply (Hl2 x Hx).
    by rewrite Heq.
Qed.

Lemma revert_queues_an_older_listed_build_witness :
  response (revert_world (Some (Some 11))) = Some (Some 11)
  ∧ (work (revert_world (Some (Some 11))) cave_build_12).2 = None.
Proof.
  pose proof (revert_queues_an_older_listed_build
                (revert_world (Some (Some 11))) cave_build_12
                {| q_caveId := "cave-1";
                   q_game := {| g_id := 9; title := "Overland" |};
                   q_upload := {| u_id := 3 |};
                   q_build := {| b_id := 11; version := 3 |};
                   q_reason := Downloads.revert |}) as H.
  destruct H as (_ & _ & _ & _ & H5 & _ & H7 & _).
  - vm_compute. do 4 apply list_elem_of_further. apply list_elem_of_here.
  - split; [exact H5|exact H7].
Defined.




(** X23. The handler runs no task for a cave that is not in the database
    or that has no game id; otherwise it runs one [install] task for the
    cave's game, without an error callback, so that [asTask] resolves
    however the work ends, with one [taskEnded] that carries the error. *)
Theorem revert_runs_one_install_task (w : World) :
  match revertCaveRequest w with
  | None =>
      found_cave w = None
      ∨ ∃ cave, found_cave w = Some cave ∧ truthy (gameId cave) = false
  | Some (opts, (effs, failure)) =>
      ∃ cave g, found_cave w = Some cave ∧ gameId cave = Some g ∧ g ≠ 0
                ∧ AsTask.name opts = AsTask.install
                ∧ AsTask.gameId opts = g
                ∧ (effs, failure) = work w cave
                ∧ ∀ r, (AsTask.asTask opts r).2 = None
                       ∧ List.filter AsTask.is_ended (AsTask.asTask opts r).1
                         = [AsTask.DispatchTaskEnded (AsTask.id r)
                              (Types.to_string <$> AsTask.work_error r)]
                       ∧ List.filter AsTask.is_onError (AsTask.asTask opts r).1 = []
  end.
Proof.
  unfold revertCaveRequest.
  destruct (found_cave w) as [cave|]; [|by left].
  destruct (truthy (gameId cave)) eqn:Ht; simpl; [|right; by exists cave].
  destruct (work w cave) as [effs failure] eqn:Hw.
  unfold truthy in Ht. destruct (gameId cave) as [g|] eqn:Hg; [|done].
  apply negb_true_iff, bool_decide_eq_false in Ht.
  exists cave, g. split_and!; [done..|].
  intros r. unfold AsTask.asTask, AsTask.cleaned_up. simpl.
  destruct (AsTask.work_error r) as [e|]; simpl.
  - destruct (Types.cancelled_kind e), (Types.aborted_kind e),
      (AsTask.close_throws r); simpl; done.
  - by destruct (AsTask.close_throws r).
Qed.

End RevertFacts.
